(** * FogEdge: the network generator of [src/app/page.tsx]

    A shallow embedding of [initializeNetwork] (the only routine of the
    page with logic of its own) together with the [FogNodeImpl] class it
    instantiates, and the properties of the generated network.

    Numbers.  A TypeScript [number] is an IEEE-754 binary64.  The
    generator is written over an interface [Number] listing the numeric
    operations the source uses, and it is run at the primitive binary64
    floats of Rocq ([Float64]), as JavaScript runs it.  What depends only
    on the shape of the code is proved for every instance of the
    interface, hence for [Float64]; what depends on the arithmetic (the
    bounding box and its diagonal, the ranges of resources and colours,
    symmetry, and thresholds that are zero or negative) is proved of
    [Float64] itself, from the specification of binary64 operations that
    comes with the primitive floats.  [numNodes], [maxConnections] and
    node ids are integers (the form fills them through [parseInt]; ids
    are array indices) and are modelled in [Z].

    Randomness.  [Math.random()] is a counter into a stream of draws
    [nat -> num]; a generation call consumes the stream from index 0.

    Errors.  The one exception a generation call can raise is the
    RangeError of [Array.from] for a length above 2^32 - 1.
    [initializeNetwork_checked] is the call with this exception;
    [initializeNetwork] is the call when it returns. *)

From Stdlib Require Import ZArith List String Lia Reals Lra Floats DecimalString.
From stdpp Require Import base list sorting.

Local Open Scope Z_scope.

(** ** The numeric interface *)

Class Number : Type := MkNumber {
  num : Type;
  num_of_Z : Z -> num;            (* integer literals: 200, 300, 400 *)
  num_add : num -> num -> num;    (* a + b *)
  num_sub : num -> num -> num;    (* a - b *)
  num_mul : num -> num -> num;    (* a * b *)
  num_pow2 : num -> num;          (* Math.pow(a, 2) *)
  num_sqrt : num -> num;          (* Math.sqrt(a) *)
  num_leb : num -> num -> bool;   (* a <= b *)
  num_floor : num -> Z            (* Math.floor(a), for finite a *)
}.

Declare Scope num_scope.
Delimit Scope num_scope with num.
Bind Scope num_scope with num.
Notation "a + b" := (num_add a b) : num_scope.
Notation "a - b" := (num_sub a b) : num_scope.
Notation "a * b" := (num_mul a b) : num_scope.
Notation "a <=? b" := (num_leb a b) : num_scope.

(** binary64: the integer value of a finite float rounded towards minus
    infinity.  [Math.floor] of a NaN or an infinity is not an integer;
    the generator only floors values of [Math.random() * 200]. *)
Definition float_floor (f : float) : Z :=
  match Prim2SF f with
  | S754_finite s m e => Z.shiftl (if s then Z.neg m else Z.pos m) e
  | _ => 0
  end.

Definition float_of_Z (z : Z) : float :=
  if z <? 0 then PrimFloat.opp (PrimFloat.of_uint63 (Uint63.of_Z (- z)))
  else PrimFloat.of_uint63 (Uint63.of_Z z).

(** [Math.pow(a, 2)] is taken to be the correctly rounded square [a * a]. *)
Definition Float64 : Number := {|
  num := float;
  num_of_Z := float_of_Z;
  num_add := PrimFloat.add;
  num_sub := PrimFloat.sub;
  num_mul := PrimFloat.mul;
  num_pow2 := fun a => PrimFloat.mul a a;
  num_sqrt := PrimFloat.sqrt;
  num_leb := PrimFloat.leb;
  num_floor := float_floor
|}.

(** ** Data model (the three interfaces of the source) *)

Record NetworkParams `{Number} : Type := MkNetworkParams {
  numNodes : Z;
  proximityThreshold : num;
  maxConnections : Z;
  resourceCapacity : num
}.

Module FogNode.
Record t `{Number} : Type := mk {
  id : Z;
  x : num;
  y : num;
  resources : num;
  connections : list Z;
  color : string
}.
End FogNode.

Module Edge.
Record t `{Number} : Type := mk {
  from : Z;
  to : Z;
  length : num
}.
End Edge.

(** ** The random source *)

(** A computation that draws: it is run at the number of draws already
    made and returns its result with the new count. *)
Definition Rand (A : Type) : Type := nat -> A * nat.

Definition ret {A} (a : A) : Rand A := fun k => (a, k).

Definition bind {A B} (c : Rand A) (f : A -> Rand B) : Rand B :=
  fun k => let (a, k') := c k in f a k'.

Notation "'let*' x ':=' c 'in' k" := (bind c (fun x => k))
  (at level 10, x name, c at level 100, k at level 200).

Section Generator.
Context `{N : Number}.

(** The stream standing for the successive values of [Math.random()]. *)
Variable draws : nat -> num.

Definition Math_random : Rand num := fun k => (draws k, S k).

(** [`${r}`] for an integer-valued number. *)
Definition decimal (z : Z) : string := NilZero.string_of_int (Z.to_int z).

(** [FogNodeImpl.generateRandomColor] (page.tsx:56). *)
Definition generateRandomColor : Rand string :=
  let* d1 := Math_random in
  let r := num_floor (d1 * num_of_Z 200) in
  let* d2 := Math_random in
  let g := num_floor (d2 * num_of_Z 200) in
  let* d3 := Math_random in
  let b := num_floor (d3 * num_of_Z 200) in
  ret ("rgb(" ++ decimal r ++ ", " ++ decimal g ++ ", " ++ decimal b ++ ")")%string.

(** [FogNodeImpl.calculateProximity] (page.tsx:63). *)
Definition calculateProximity (this otherNode : FogNode.t) : num :=
  num_sqrt (num_pow2 (FogNode.x this - FogNode.x otherNode)
            + num_pow2 (FogNode.y this - FogNode.y otherNode)).

Variable networkParams : NetworkParams.

(** [new FogNodeImpl(id, x, y)] (page.tsx:45-54): the field initialiser
    [connections = []] and then the constructor body. *)
Definition FogNodeImpl (id : Z) (x y : num) : Rand FogNode.t :=
  let* d := Math_random in
  let resources := (d * resourceCapacity networkParams)%num in
  let* color := generateRandomColor in
  ret (FogNode.mk _ id x y resources [] color).

(** [Array.from({ length }, (_, i) => f(i))]: [f] is called on
    i, i+1, ... in turn, [count] times. *)
Fixpoint Array_from_loop {A} (f : Z -> Rand A) (count : nat) (i : Z) : Rand (list A) :=
  match count with
  | O => ret []
  | S count' =>
      let* a := f i in
      let* rest := Array_from_loop f count' (i + 1) in
      ret (a :: rest)
  end.

(** A negative [length] is clamped to 0 (ToLength). *)
Definition Array_from {A} (length : Z) (f : Z -> Rand A) : Rand (list A) :=
  Array_from_loop f (Z.to_nat length) 0.

(** The largest length an array can have.  [Array.from({ length }, f)]
    creates the array before it calls [f]: above this length it throws a
    RangeError, and [f] is never called. *)
Definition max_array_length : Z := 2 ^ 32 - 1.

Definition Array_from_checked {A} (length : Z) (f : Z -> Rand A)
  : Rand (option (list A)) :=
  fun k =>
    if max_array_length <? length then (None, k)
    else let (l, k') := Array_from length f k in (Some l, k').

(** [Array.prototype.slice(0, end)] for an integer [end]: a negative
    [end] counts from the end of the array. *)
Definition slice0 {A} (l : list A) (end_ : Z) : list A :=
  if end_ <? 0 then take (Z.to_nat (Z.of_nat (List.length l) + end_)) l
  else take (Z.to_nat end_) l.

(** The state of the assignment pass: the node objects of [newNodes]
    (mutated in place through [connections.push]) and [newEdges]. *)
Definition pass_state : Type := list FogNode.t * list Edge.t.

(** The callback of [.filter] (page.tsx:83-86). *)
Definition eligible (node otherNode : FogNode.t) : bool :=
  negb (FogNode.id otherNode =? FogNode.id node)
  && (calculateProximity node otherNode <=? proximityThreshold networkParams)%num
  && (Z.of_nat (List.length (FogNode.connections node)) <? maxConnections networkParams).

Definition push_connection (cid : Z) (node : FogNode.t) : FogNode.t :=
  FogNode.mk _ (FogNode.id node) (FogNode.x node) (FogNode.y node)
    (FogNode.resources node) (FogNode.connections node ++ [cid]) (FogNode.color node).

(** The body of the inner [forEach] (page.tsx:90-97).  [index] is the
    place of [node] in [newNodes]: the push goes to that object.  The
    fields read from [node] and [connectedNode] ([id], [x], [y]) are
    never written after construction. *)
Definition connect (index : nat) (node : FogNode.t)
    (st : pass_state) (connectedNode : FogNode.t) : pass_state :=
  let newEdge :=
    Edge.mk _ (FogNode.id node) (FogNode.id connectedNode)
      (calculateProximity node connectedNode) in
  (alter (push_connection (FogNode.id connectedNode)) index st.1,
   st.2 ++ [newEdge]).

(** The body of the outer [forEach] (page.tsx:80-98), at [index]. *)
Definition assign (st : pass_state) (index : nat) : pass_state :=
  match st.1 !! index with
  | None => st
  | Some node =>
      let potentialConnections :=
        slice0 (List.filter (eligible node) st.1) (maxConnections networkParams) in
      foldl (connect index node) st potentialConnections
  end.

(** The arrow function given to [Array.from] (page.tsx:73-75): the two
    arguments are evaluated, left to right, before the constructor runs. *)
Definition placeNode (i : Z) : Rand FogNode.t :=
  let* dx := Math_random in
  let* dy := Math_random in
  FogNodeImpl i (dx * num_of_Z 400) (dy * num_of_Z 300).

(** [initializeNetwork] (page.tsx:72-102); the result is what is handed
    to [setNodes] and [setEdges]. *)
Definition initializeNetwork_rand : Rand pass_state :=
  let* newNodes := Array_from (numNodes networkParams) placeNode in
  let newEdges : list Edge.t := [] in
  ret (foldl assign (newNodes, newEdges) (seq 0 (List.length newNodes))).

(** The call with its exception: [None] when [Array.from] throws
    (page.tsx:73), which is before any draw and before [setNodes]. *)
Definition initializeNetwork_checked : Rand (option pass_state) :=
  fun k =>
    match Array_from_checked (numNodes networkParams) placeNode k with
    | (None, k') => (None, k')
    | (Some newNodes, k') =>
        let newEdges : list Edge.t := [] in
        (Some (foldl assign (newNodes, newEdges) (seq 0 (List.length newNodes))), k')
    end.

Definition initializeNetwork : pass_state := (initializeNetwork_rand 0%nat).1.

End Generator.

(** * Properties of the generator *)

(** ** Placement: what [Array.from] builds and how many draws it makes *)

Section Placement.
Context `{N : Number}.
Variable d : nat -> num.
Variable p : NetworkParams.

(** The node object built for index [i] when [k] draws were made before. *)
Definition nodeAt (i : Z) (k : nat) : FogNode.t := (placeNode d p i k).1.

(** The array [newNodes] as it is before the assignment pass. *)
Definition newNodes : list FogNode.t :=
  (Array_from (numNodes p) (placeNode d p) 0%nat).1.

Lemma placeNode_draws i k : (placeNode d p i k).2 = (6 + k)%nat.
Proof. reflexivity. Qed.

Lemma nodeAt_id i k : FogNode.id (nodeAt i k) = i.
Proof. reflexivity. Qed.

Lemma nodeAt_connections i k : FogNode.connections (nodeAt i k) = [].
Proof. reflexivity. Qed.

Lemma nodeAt_x i k : FogNode.x (nodeAt i k) = (d k * num_of_Z 400)%num.
Proof. reflexivity. Qed.

Lemma nodeAt_y i k : FogNode.y (nodeAt i k) = (d (S k) * num_of_Z 300)%num.
Proof. reflexivity. Qed.

Lemma nodeAt_resources i k :
  FogNode.resources (nodeAt i k) = (d (2 + k)%nat * resourceCapacity p)%num.
Proof. reflexivity. Qed.

Lemma Array_from_loop_S {A} (f : Z -> Rand A) n i k :
  Array_from_loop f (S n) i k =
  ((f i k).1 :: (Array_from_loop f n (i + 1) (f i k).2).1,
   (Array_from_loop f n (i + 1) (f i k).2).2).
Proof.
  simpl. unfold bind, ret. destruct (f i k) as [a k']. simpl.
  destruct (Array_from_loop f n (i + 1) k'). reflexivity.
Qed.

Lemma Array_from_loop_length {A} (f : Z -> Rand A) n :
  forall i k, List.length (Array_from_loop f n i k).1 = n.
Proof.
  induction n as [|n IH]; intros i k; [reflexivity|].
  rewrite Array_from_loop_S. simpl. now rewrite IH.
Qed.

Lemma placed_lookup n :
  forall i k j, (j < n)%nat ->
    (Array_from_loop (placeNode d p) n i k).1 !! j
    = Some (nodeAt (i + Z.of_nat j) (6 * j + k)).
Proof.
  induction n as [|n IH]; intros i k j Hj; [lia|].
  rewrite Array_from_loop_S. cbn [fst].
  destruct j as [|j].
  - replace (i + Z.of_nat 0) with i by lia.
    replace (6 * 0 + k)%nat with k by lia. reflexivity.
  - change ((?a :: ?l) !! S j) with (l !! j).
    rewrite placeNode_draws, IH by lia.
    replace (i + 1 + Z.of_nat j) with (i + Z.of_nat (S j)) by lia.
    replace (6 * j + (6 + k))%nat with (6 * S j + k)%nat by lia. reflexivity.
Qed.

Lemma newNodes_length : List.length newNodes = Z.to_nat (numNodes p).
Proof. apply Array_from_loop_length. Qed.

Lemma newNodes_lookup j :
  (j < Z.to_nat (numNodes p))%nat ->
  newNodes !! j = Some (nodeAt (Z.of_nat j) (6 * j)).
Proof.
  intros Hj. unfold newNodes, Array_from. rewrite placed_lookup by lia.
  replace (6 * j + 0)%nat with (6 * j)%nat by lia. reflexivity.
Qed.

Lemma newNodes_lookup_inv j nd :
  newNodes !! j = Some nd ->
  (j < Z.to_nat (numNodes p))%nat /\ nd = nodeAt (Z.of_nat j) (6 * j).
Proof.
  intros H. assert (Hj : (j < Z.to_nat (numNodes p))%nat).
  { rewrite <- newNodes_length. eapply lookup_lt_Some, H. }
  split; [exact Hj|]. rewrite newNodes_lookup in H by exact Hj. congruence.
Qed.

Lemma newNodes_ids :
  FogNode.id <$> newNodes = Z.of_nat <$> seq 0 (Z.to_nat (numNodes p)).
Proof.
  apply list_eq. intros j. rewrite !list_lookup_fmap.
  destruct (decide (j < Z.to_nat (numNodes p))%nat) as [Hj|Hj].
  - rewrite newNodes_lookup by exact Hj. rewrite lookup_seq_lt by exact Hj.
    reflexivity.
  - rewrite (lookup_ge_None_2 newNodes) by (rewrite newNodes_length; lia).
    rewrite lookup_seq_ge by lia. reflexivity.
Qed.

Lemma newNodes_fresh nd : nd ∈ newNodes -> FogNode.connections nd = [].
Proof.
  intros [j Hj]%list_elem_of_lookup.
  apply newNodes_lookup_inv in Hj as [_ ->]. reflexivity.
Qed.

Lemma initializeNetwork_unfold :
  initializeNetwork d p
  = foldl (assign p) (newNodes, []) (seq 0 (List.length newNodes)).
Proof.
  unfold initializeNetwork, initializeNetwork_rand, bind, ret, newNodes.
  destruct (Array_from (numNodes p) (placeNode d p) 0%nat). reflexivity.
Qed.

End Placement.

(** ** The assignment pass *)

Section Assignment.
Context `{N : Number}.
Variable p : NetworkParams.

(** The record pushed to [newEdges] for [node] and one of its candidates. *)
Definition newEdge (node connectedNode : FogNode.t) : Edge.t :=
  Edge.mk _ (FogNode.id node) (FogNode.id connectedNode)
    (calculateProximity node connectedNode).

(** [potentialConnections] of [node] over the array [nodes]. *)
Definition candidates (nodes : list FogNode.t) (node : FogNode.t) : list FogNode.t :=
  slice0 (List.filter (eligible p node) nodes) (maxConnections p).

(** Several pushes to [connections] in a row. *)
Definition push_connections (cids : list Z) (node : FogNode.t) : FogNode.t :=
  FogNode.mk _ (FogNode.id node) (FogNode.x node) (FogNode.y node)
    (FogNode.resources node) (FogNode.connections node ++ cids) (FogNode.color node).

(** A node object without its [connections]: the fields that are fixed
    at construction. *)
Definition strip (node : FogNode.t) : FogNode.t :=
  FogNode.mk _ (FogNode.id node) (FogNode.x node) (FogNode.y node)
    (FogNode.resources node) [] (FogNode.color node).

(** The edges [node] creates during its own pass, and the node after it. *)
Definition outgoing (nodes : list FogNode.t) (node : FogNode.t) : list Edge.t :=
  newEdge node <$> candidates nodes node.

Definition processed (nodes : list FogNode.t) (node : FogNode.t) : FogNode.t :=
  push_connections (FogNode.id <$> candidates nodes node) node.

Lemma push_connections_nil node : push_connections [] node = node.
Proof. destruct node. unfold push_connections. simpl. now rewrite app_nil_r. Qed.

Lemma push_connections_cons c cids node :
  push_connections cids (push_connection c node) = push_connections (c :: cids) node.
Proof. unfold push_connections, push_connection. simpl. now rewrite <- app_assoc. Qed.

Lemma strip_push cids node : strip (push_connections cids node) = strip node.
Proof. reflexivity. Qed.

Lemma strip_fresh node : FogNode.connections node = [] -> strip node = node.
Proof. destruct node. simpl. intros ->. reflexivity. Qed.

Lemma eligible_strip node other : eligible p node (strip other) = eligible p node other.
Proof. reflexivity. Qed.

Lemma newEdge_strip node other : newEdge node (strip other) = newEdge node other.
Proof. reflexivity. Qed.

Lemma filter_fmap_swap {A B} (f : A -> B) (P : B -> bool) (l : list A) :
  List.filter P (f <$> l) = f <$> List.filter (fun a => P (f a)) l.
Proof.
  induction l as [|a l IH]; [reflexivity|]. cbn [fmap list_fmap List.filter].
  destruct (P (f a)); cbn [fmap list_fmap]; now rewrite <- IH.
Qed.

Lemma slice0_fmap {A B} (f : A -> B) (l : list A) m :
  f <$> slice0 l m = slice0 (f <$> l) m.
Proof. unfold slice0. rewrite length_fmap. destruct (m <? 0); apply fmap_take. Qed.

Lemma candidates_strip nodes node :
  strip <$> candidates nodes node = candidates (strip <$> nodes) node.
Proof.
  unfold candidates. rewrite slice0_fmap. f_equal.
  rewrite filter_fmap_swap. reflexivity.
Qed.

(** What [node] selects depends on the other objects only through the
    fields fixed at construction. *)
Lemma candidates_same_fixed {B} (g : FogNode.t -> B) nodes nodes' node :
  (forall c, g (strip c) = g c) ->
  strip <$> nodes = strip <$> nodes' ->
  g <$> candidates nodes node = g <$> candidates nodes' node.
Proof.
  intros Hg Heq.
  assert (E : forall l, g <$> candidates l node = g <$> candidates (strip <$> l) node).
  { intros l. rewrite <- candidates_strip, <- list_fmap_compose.
    apply list_fmap_ext. intros _ c _. symmetry. apply Hg. }
  rewrite (E nodes), (E nodes'), Heq. reflexivity.
Qed.

(** The inner [forEach]: every push goes to the object at [index]. *)
Lemma foldl_connect index node cs :
  forall st,
    foldl (connect index node) st cs
    = (alter (push_connections (FogNode.id <$> cs)) index st.1,
       st.2 ++ (newEdge node <$> cs)).
Proof.
  induction cs as [|c cs IH]; intros [store es].
  - cbn [foldl fmap list_fmap fst snd]. rewrite app_nil_r.
    rewrite list_alter_id by apply push_connections_nil. reflexivity.
  - cbn [foldl]. rewrite IH. unfold connect. cbn [fst snd fmap list_fmap].
    rewrite list_alter_alter_eq, <- app_assoc. f_equal.
    apply list_alter_ext; [|reflexivity]. intros nd _. apply push_connections_cons.
Qed.

(** The pass of [index] leaves every other object as it was. *)
Lemma assign_frame st index j :
  index <> j -> (assign p st index).1 !! j = st.1 !! j.
Proof.
  intros Hne. unfold assign. destruct (st.1 !! index) as [node|]; [|reflexivity].
  rewrite foldl_connect. cbn [fst]. now apply list_lookup_alter_ne.
Qed.

(** A pass writes to [connections] only. *)
Lemma assign_fixed_fields st index :
  strip <$> (assign p st index).1 = strip <$> st.1.
Proof.
  unfold assign. destruct (st.1 !! index) as [node|]; [|reflexivity].
  rewrite foldl_connect. cbn [fst]. apply list_eq. intros j.
  rewrite !list_lookup_fmap. destruct (decide (index = j)) as [->|Hne].
  - rewrite list_lookup_alter_eq. now destruct (st.1 !! j).
  - now rewrite list_lookup_alter_ne.
Qed.

(** The state after the first [i] passes over fresh nodes. *)
Lemma assign_prefix (nodes : list FogNode.t) :
  (forall nd, nd ∈ nodes -> FogNode.connections nd = []) ->
  forall i, (i <= List.length nodes)%nat ->
    foldl (assign p) (nodes, []) (seq 0 i)
    = ((processed nodes <$> take i nodes) ++ drop i nodes,
       flat_map (outgoing nodes) (take i nodes)).
Proof.
  intros Hfresh. induction i as [|i IH]; intros Hi.
  - reflexivity.
  - rewrite seq_S, foldl_snoc, IH by lia. cbn [Nat.add].
    destruct (lookup_lt_is_Some_2 nodes i) as [node Hnode]; [lia|].
    assert (Hlen : List.length (processed nodes <$> take i nodes) = i).
    { rewrite length_fmap, length_take. lia. }
    unfold assign. cbn [fst snd].
    rewrite lookup_app_r by lia. rewrite Hlen, Nat.sub_diag, lookup_drop, Nat.add_0_r, Hnode.
    rewrite foldl_connect. cbn [fst snd].
    assert (Hfix : strip <$> (processed nodes <$> take i nodes) ++ drop i nodes
                   = strip <$> nodes).
    { rewrite fmap_app, <- list_fmap_compose.
      rewrite (list_fmap_ext (strip ∘ processed nodes) strip (take i nodes))
        by (intros; reflexivity).
      rewrite <- fmap_app, take_drop. reflexivity. }
    fold (candidates ((processed nodes <$> take i nodes) ++ drop i nodes) node).
    rewrite (candidates_same_fixed FogNode.id _ nodes node) by (reflexivity || exact Hfix).
    rewrite (candidates_same_fixed (newEdge node) _ nodes node)
      by (reflexivity || exact Hfix).
    rewrite (take_S_r nodes i node Hnode), (drop_S nodes node i Hnode).
    rewrite fmap_app, flat_map_app. cbn [fmap list_fmap flat_map]. rewrite app_nil_r.
    f_equal.
    rewrite <- (Nat.add_0_r i) at 1. rewrite <- Hlen at 1.
    rewrite alter_app_r. cbn [alter list_alter]. rewrite <- app_assoc. reflexivity.
Qed.

(** The whole pass. *)
Lemma assign_all (nodes : list FogNode.t) :
  (forall nd, nd ∈ nodes -> FogNode.connections nd = []) ->
  foldl (assign p) (nodes, []) (seq 0 (List.length nodes))
  = (processed nodes <$> nodes, flat_map (outgoing nodes) nodes).
Proof.
  intros Hfresh. rewrite assign_prefix by (exact Hfresh || lia).
  rewrite take_ge, drop_ge by lia. now rewrite app_nil_r.
Qed.

End Assignment.

(** ** The generated network *)

(** The two results of a generation call. *)
Definition generated_nodes `{N : Number} (d : nat -> num) (p : NetworkParams)
  : list FogNode.t := (initializeNetwork d p).1.

Definition generated_edges `{N : Number} (d : nat -> num) (p : NetworkParams)
  : list Edge.t := (initializeNetwork d p).2.

(** The edges in which node [i] is the [from] end, in output order. *)
Definition out_edges `{N : Number} (i : Z) (es : list Edge.t) : list Edge.t :=
  List.filter (fun e => Edge.from e =? i) es.

(** The distance gate of the filter, without the cap. *)
Definition within_reach `{N : Number} (p : NetworkParams) (node otherNode : FogNode.t)
  : bool :=
  negb (FogNode.id otherNode =? FogNode.id node)
  && (calculateProximity node otherNode <=? proximityThreshold p)%num.

Section Network.
Context `{N : Number}.
Variable d : nat -> num.
Variable p : NetworkParams.

Let L := newNodes d p.

Lemma generated_nodes_eq : generated_nodes d p = processed p L <$> L.
Proof.
  unfold generated_nodes. rewrite initializeNetwork_unfold.
  rewrite assign_all by apply newNodes_fresh. reflexivity.
Qed.

Lemma generated_edges_eq : generated_edges d p = flat_map (outgoing p L) L.
Proof.
  unfold generated_edges. rewrite initializeNetwork_unfold.
  rewrite assign_all by apply newNodes_fresh. reflexivity.
Qed.

Lemma generated_nodes_ids :
  FogNode.id <$> generated_nodes d p = seqZ 0 (numNodes p).
Proof.
  rewrite generated_nodes_eq, <- list_fmap_compose.
  rewrite (list_fmap_ext (FogNode.id ∘ processed p L) FogNode.id L)
    by (intros; reflexivity).
  unfold L. rewrite newNodes_ids. unfold seqZ.
  apply list_fmap_ext. intros; lia.
Qed.

Lemma generated_node_inv nd :
  nd ∈ generated_nodes d p -> exists nd0, nd0 ∈ L /\ nd = processed p L nd0.
Proof.
  rewrite generated_nodes_eq. intros (nd0 & -> & H)%list_elem_of_fmap. eauto.
Qed.

Lemma slice0_subset {A} (l : list A) m a : a ∈ slice0 l m -> a ∈ l.
Proof.
  unfold slice0. destruct (m <? 0); apply subseteq_take.
Qed.

Lemma candidate_inv nodes node c :
  c ∈ candidates p nodes node -> c ∈ nodes /\ eligible p node c = true.
Proof.
  intros H%slice0_subset. apply list_elem_of_In, filter_In in H as [H1 H2].
  split; [now apply list_elem_of_In | exact H2].
Qed.

Lemma eligible_inv node c :
  eligible p node c = true ->
  FogNode.id c <> FogNode.id node
  /\ (calculateProximity node c <=? proximityThreshold p)%num = true
  /\ Z.of_nat (List.length (FogNode.connections node)) < maxConnections p.
Proof.
  unfold eligible. rewrite !andb_true_iff, negb_true_iff, Z.eqb_neq, Z.ltb_lt. tauto.
Qed.

Lemma generated_edge_inv e :
  e ∈ generated_edges d p ->
  exists nd c, nd ∈ L /\ c ∈ L /\ eligible p nd c = true /\ e = newEdge nd c.
Proof.
  rewrite generated_edges_eq. intros H%list_elem_of_In.
  apply in_flat_map in H as (nd & Hnd%list_elem_of_In & He%list_elem_of_In).
  apply list_elem_of_fmap in He as (c & -> & Hc).
  apply candidate_inv in Hc as [Hc Hel]. eauto 6.
Qed.

(** For a fresh node the cap test of the filter is [0 < maxConnections],
    so the selection is a prefix of the nodes within reach. *)
Lemma candidates_prefix nodes node :
  FogNode.connections node = [] ->
  candidates p nodes node
  = take (Z.to_nat (maxConnections p)) (List.filter (within_reach p node) nodes).
Proof.
  intros Hfresh. unfold candidates, slice0.
  destruct (Z.ltb_spec 0 (maxConnections p)) as [Hm|Hm].
  - destruct (Z.ltb_spec (maxConnections p) 0); [lia|]. f_equal.
    apply filter_ext. intros c. unfold eligible, within_reach.
    replace (Z.of_nat (List.length (FogNode.connections node)) <? maxConnections p)
      with true; [now rewrite andb_true_r|].
    symmetry. apply Z.ltb_lt. rewrite Hfresh. simpl. lia.
  - assert (E : List.filter (eligible p node) nodes = []).
    { induction nodes as [|c l IH]; [reflexivity|]. cbn [List.filter].
      rewrite IH. unfold eligible.
      replace (Z.of_nat (List.length (FogNode.connections node)) <? maxConnections p)
        with false; [now rewrite andb_false_r|].
      symmetry. apply Z.ltb_ge. rewrite Hfresh. simpl. lia. }
    rewrite E. replace (Z.to_nat (maxConnections p)) with 0%nat by lia.
    destruct (maxConnections p <? 0); now rewrite ?take_nil.
Qed.

Lemma candidates_length nodes node :
  FogNode.connections node = [] -> 0 <= maxConnections p ->
  Z.of_nat (List.length (candidates p nodes node)) <= maxConnections p.
Proof.
  intros Hfresh Hm. rewrite candidates_prefix by exact Hfresh.
  rewrite length_take. lia.
Qed.

(** Grouping the output edges by their [from] end. *)
Lemma out_edges_outgoing nodes nd i :
  out_edges i (outgoing p nodes nd)
  = if FogNode.id nd =? i then outgoing p nodes nd else [].
Proof.
  unfold out_edges, outgoing. induction (candidates p nodes nd) as [|c l IH].
  - now destruct (FogNode.id nd =? i).
  - cbn [fmap list_fmap List.filter]. cbn [newEdge Edge.from].
    change (list_fmap _ _ (newEdge nd) l) with (newEdge nd <$> l).
    rewrite IH. now destruct (FogNode.id nd =? i).
Qed.

Lemma out_edges_flat_map nodes l i :
  out_edges i (flat_map (outgoing p nodes) l)
  = flat_map (outgoing p nodes) (List.filter (fun nd => FogNode.id nd =? i) l).
Proof.
  induction l as [|nd l IH]; [reflexivity|].
  cbn [flat_map List.filter]. unfold out_edges in *.
  rewrite List.filter_app, IH. fold (out_edges i (outgoing p nodes nd)).
  rewrite out_edges_outgoing. destruct (FogNode.id nd =? i); reflexivity.
Qed.

Lemma filter_absent_id (l : list FogNode.t) i :
  (forall b, b ∈ l -> FogNode.id b <> i) ->
  List.filter (fun a => FogNode.id a =? i) l = [].
Proof.
  induction l as [|a l IH]; intros Hno; [reflexivity|]. cbn [List.filter].
  destruct (Z.eqb_spec (FogNode.id a) i) as [E|E].
  - exfalso. apply (Hno a); [left | exact E].
  - apply IH. intros b Hb. apply Hno. now right.
Qed.

Lemma filter_unique_id (l : list FogNode.t) nd :
  NoDup (FogNode.id <$> l) -> nd ∈ l ->
  List.filter (fun a => FogNode.id a =? FogNode.id nd) l = [nd].
Proof.
  induction l as [|a l IH]; intros Hnd Hin.
  - now apply elem_of_nil in Hin.
  - cbn [fmap list_fmap] in Hnd. apply NoDup_cons in Hnd as [Ha Hnd].
    assert (Hnone : forall b, b ∈ l -> FogNode.id b <> FogNode.id a).
    { intros b Hb Hid. apply Ha. rewrite <- Hid. now apply list_elem_of_fmap_2. }
    cbn [List.filter]. apply elem_of_cons in Hin as [->|Hin].
    + rewrite Z.eqb_refl. f_equal. now apply filter_absent_id.
    + destruct (Z.eqb_spec (FogNode.id a) (FogNode.id nd)) as [E|E].
      * exfalso. apply (Hnone nd Hin). now symmetry.
      * now apply IH.
Qed.

(** The edges leaving a placed node are exactly those of its own pass. *)
Lemma out_edges_generated nd :
  nd ∈ L -> out_edges (FogNode.id nd) (generated_edges d p) = outgoing p L nd.
Proof.
  intros Hnd. rewrite generated_edges_eq, out_edges_flat_map.
  rewrite filter_unique_id; [cbn [flat_map]; apply app_nil_r | | exact Hnd].
  unfold L. rewrite newNodes_ids. apply NoDup_fmap_2; [|apply NoDup_seq].
  intros a b. lia.
Qed.

End Network.

(** ** Nodes, edges and the connection cap *)

Section Claims.
Context `{N : Number}.
Variable d : nat -> num.
Variable p : NetworkParams.

(** A call that does not throw is the call of [initializeNetwork_rand]. *)
Lemma initializeNetwork_checked_eq k :
  initializeNetwork_checked d p k
  = if max_array_length <? numNodes p then (None, k)
    else (Some (initializeNetwork_rand d p k).1, (initializeNetwork_rand d p k).2).
Proof.
  unfold initializeNetwork_checked, Array_from_checked, initializeNetwork_rand, bind, ret.
  destruct (max_array_length <? numNodes p); [reflexivity|].
  now destruct (Array_from (numNodes p) (placeNode d p) k).
Qed.


(** C2.  Every edge of the output joins two distinct nodes of the returned
    node set, and its [length] is the Euclidean distance
    sqrt((x_a - x_b)^2 + (y_a - y_b)^2) of their recorded positions. *)
Theorem edges_join_distinct_nodes_at_distance :
  Forall (fun e =>
    Edge.from e <> Edge.to e
    /\ exists a b,
         a ∈ generated_nodes d p /\ b ∈ generated_nodes d p
         /\ FogNode.id a = Edge.from e /\ FogNode.id b = Edge.to e
         /\ Edge.length e
            = num_sqrt (num_pow2 (FogNode.x a - FogNode.x b)
                        + num_pow2 (FogNode.y a - FogNode.y b)))
    (generated_edges d p).
Proof.
  apply Forall_forall. intros e He.
  apply generated_edge_inv in He as (nd & c & Hnd & Hc & Hel & ->).
  apply eligible_inv in Hel as (Hid & _ & _).
  split; [cbn; congruence|].
  exists (processed p (newNodes d p) nd), (processed p (newNodes d p) c).
  rewrite generated_nodes_eq.
  split; [now apply list_elem_of_fmap_2|].
  split; [now apply list_elem_of_fmap_2|].
  repeat split; reflexivity.
Qed.

(** C3.  No edge of the output is longer than [proximityThreshold]. *)
Theorem edges_within_threshold :
  Forall (fun e => (Edge.length e <=? proximityThreshold p)%num = true)
    (generated_edges d p).
Proof.
  apply Forall_forall. intros e He.
  apply generated_edge_inv in He as (nd & c & _ & _ & Hel & ->).
  apply eligible_inv in Hel as (_ & Hle & _). exact Hle.
Qed.

(** C4.  For valid parameters ([maxConnections >= 0]) no node is the
    [from] end of more than [maxConnections] edges. *)
Theorem out_degree_capped :
  0 <= maxConnections p ->
  Forall (fun nd =>
    Z.of_nat (List.length (out_edges (FogNode.id nd) (generated_edges d p)))
    <= maxConnections p)
    (generated_nodes d p).
Proof.
  intros Hm. apply Forall_forall. intros nd Hnd.
  apply generated_node_inv in Hnd as (nd0 & Hnd0 & ->).
  change (FogNode.id (processed p (newNodes d p) nd0)) with (FogNode.id nd0).
  rewrite out_edges_generated by exact Hnd0.
  unfold outgoing. rewrite length_fmap.
  apply candidates_length; [now apply (newNodes_fresh d p) | exact Hm].
Qed.

End Claims.

(** ** Order of the output *)

Section ListFacts.
Context {A : Type}.

Lemma StronglySorted_filter_fmap (R : relation Z) (f : A -> Z) (P : A -> bool) l :
  StronglySorted R (f <$> l) -> StronglySorted R (f <$> List.filter P l).
Proof.
  induction l as [|a l IH]; [trivial|]. cbn [fmap list_fmap List.filter].
  intros [Hall Hs]%StronglySorted_cons. destruct (P a); [|now apply IH].
  cbn [fmap list_fmap]. apply StronglySorted_cons. split; [|now apply IH].
  apply Forall_forall. intros z (b & -> & Hb)%list_elem_of_fmap.
  apply list_elem_of_In, filter_In in Hb as [Hb _].
  rewrite Forall_forall in Hall. apply Hall.
  now apply list_elem_of_fmap_2, list_elem_of_In.
Qed.

Lemma StronglySorted_take (R : relation Z) (l : list Z) n :
  StronglySorted R l -> StronglySorted R (take n l).
Proof.
  rewrite <- (take_drop n l) at 1. apply StronglySorted_app_1_l.
Qed.

Lemma StronglySorted_constant (c : Z) (l : list Z) :
  (forall z, z ∈ l -> z = c) -> StronglySorted Z.le l.
Proof.
  induction l as [|a l IH]; intros Hc; constructor.
  - apply IH. intros z Hz. apply Hc. now right.
  - apply Forall_forall. intros z Hz.
    rewrite (Hc a) by left. rewrite (Hc z) by now right. lia.
Qed.

Lemma flat_map_fmap {B C} (f : A -> B) (g : B -> list C) l :
  flat_map g (f <$> l) = flat_map (fun a => g (f a)) l.
Proof.
  induction l as [|a l IH]; [reflexivity|]. cbn [fmap list_fmap flat_map].
  now rewrite <- IH.
Qed.

Lemma flat_map_ext_elem {B} (f g : A -> list B) l :
  (forall a, a ∈ l -> f a = g a) -> flat_map f l = flat_map g l.
Proof.
  induction l as [|a l IH]; intros H; [reflexivity|]. cbn [flat_map].
  rewrite (H a) by left. rewrite IH; [reflexivity|]. intros b Hb. apply H. now right.
Qed.

End ListFacts.

Lemma StronglySorted_ids (n : nat) : forall s, StronglySorted Z.lt (Z.of_nat <$> seq s n).
Proof.
  induction n as [|n IH]; intros s; cbn [seq fmap list_fmap]; constructor.
  - apply IH.
  - apply Forall_forall. intros z (k & -> & Hk)%list_elem_of_fmap.
    apply list_elem_of_In, in_seq in Hk. lia.
Qed.

Section Order.
Context `{N : Number}.
Variable d : nat -> num.
Variable p : NetworkParams.

Let L := newNodes d p.

Lemma outgoing_to nodes nd :
  Edge.to <$> outgoing p nodes nd = FogNode.id <$> candidates p nodes nd.
Proof.
  unfold outgoing. rewrite <- list_fmap_compose. apply list_fmap_ext.
  intros; reflexivity.
Qed.

Lemma outgoing_from nodes nd z :
  z ∈ Edge.from <$> outgoing p nodes nd -> z = FogNode.id nd.
Proof.
  unfold outgoing. rewrite <- list_fmap_compose.
  intros (c & -> & _)%list_elem_of_fmap. reflexivity.
Qed.

Lemma from_sorted nodes l :
  StronglySorted Z.lt (FogNode.id <$> l) ->
  StronglySorted Z.le (Edge.from <$> flat_map (outgoing p nodes) l).
Proof.
  induction l as [|a l IH]; [constructor|]. cbn [fmap list_fmap flat_map].
  intros [Hall Hs]%StronglySorted_cons. rewrite fmap_app.
  apply StronglySorted_app_2; [| |now apply IH].
  - intros z1 z2 ->%outgoing_from (e & -> & He)%list_elem_of_fmap.
    apply list_elem_of_In, in_flat_map in He as (b & Hb & He).
    rewrite (outgoing_from nodes b (Edge.from e))
      by now apply list_elem_of_fmap_2, list_elem_of_In.
    rewrite Forall_forall in Hall. apply Z.lt_le_incl, Hall.
    now apply list_elem_of_fmap_2, list_elem_of_In.
  - apply (StronglySorted_constant (FogNode.id a)). apply outgoing_from.
Qed.

(** The targets of a node's edges, in output order, are the ids of the
    first [maxConnections] nodes within reach, in array order. *)
Lemma selection_in_creation_order nd :
  nd ∈ generated_nodes d p ->
  Edge.to <$> out_edges (FogNode.id nd) (generated_edges d p)
  = FogNode.id <$> take (Z.to_nat (maxConnections p))
                     (List.filter (within_reach p nd) (generated_nodes d p)).
Proof.
  intros (nd0 & Hnd0 & ->)%generated_node_inv.
  change (FogNode.id (processed p (newNodes d p) nd0)) with (FogNode.id nd0).
  rewrite out_edges_generated by exact Hnd0. rewrite outgoing_to.
  rewrite candidates_prefix by now apply (newNodes_fresh d p).
  rewrite generated_nodes_eq, filter_fmap_swap, <- fmap_take, <- list_fmap_compose.
  reflexivity.
Qed.

(** C6.  The edge sequence is the concatenation, over the nodes in id
    order, of each node's own edges (so the [from] ids never decrease);
    the targets of one node's edges are the ids of the first
    [maxConnections] other nodes within [proximityThreshold], taken in
    creation order, hence strictly ascending: distance decides who is
    eligible and never reorders the candidates. *)
Theorem edges_in_creation_order :
  generated_edges d p
  = flat_map (fun nd => out_edges (FogNode.id nd) (generated_edges d p))
      (generated_nodes d p)
  /\ StronglySorted Z.le (Edge.from <$> generated_edges d p)
  /\ Forall (fun nd =>
       Edge.to <$> out_edges (FogNode.id nd) (generated_edges d p)
       = FogNode.id <$> take (Z.to_nat (maxConnections p))
                          (List.filter (within_reach p nd) (generated_nodes d p))
       /\ StronglySorted Z.lt
            (Edge.to <$> out_edges (FogNode.id nd) (generated_edges d p)))
     (generated_nodes d p).
Proof.
  split; [|split].
  - rewrite generated_nodes_eq, flat_map_fmap.
    rewrite generated_edges_eq at 1. apply flat_map_ext_elem.
    intros nd Hnd. symmetry.
    change (FogNode.id (processed p (newNodes d p) nd)) with (FogNode.id nd).
    now apply out_edges_generated.
  - rewrite generated_edges_eq. apply from_sorted.
    unfold L. rewrite newNodes_ids. apply StronglySorted_ids.
  - apply Forall_forall. intros nd Hnd. split.
    + now apply selection_in_creation_order.
    + rewrite selection_in_creation_order by exact Hnd.
      rewrite fmap_take. apply StronglySorted_take, StronglySorted_filter_fmap.
      rewrite generated_nodes_ids. unfold seqZ.
      rewrite (list_fmap_ext _ Z.of_nat (seq 0 (Z.to_nat (numNodes p))) )
        by (intros; lia).
      apply StronglySorted_ids.
Qed.

(** C9.  The pass of one node leaves every other node object as it was
    (a selected candidate's [connections] included) and changes nothing
    but [connections] in its own; when generation is over, the
    [connections] of every node list, in order, the [to] ids of the edges
    leaving it. *)
Theorem connections_are_own_out_edges :
  (forall (st : pass_state) (index j : nat),
     index <> j -> (assign p st index).1 !! j = st.1 !! j)
  /\ (forall (st : pass_state) (index : nat),
       strip <$> (assign p st index).1 = strip <$> st.1)
  /\ Forall (fun nd =>
       FogNode.connections nd
       = Edge.to <$> out_edges (FogNode.id nd) (generated_edges d p))
     (generated_nodes d p).
Proof.
  split; [apply assign_frame|]. split; [apply assign_fixed_fields|].
  apply Forall_forall. intros nd (nd0 & Hnd0 & ->)%generated_node_inv.
  change (FogNode.id (processed p (newNodes d p) nd0)) with (FogNode.id nd0).
  rewrite out_edges_generated by exact Hnd0. rewrite outgoing_to.
  cbn [processed push_connections FogNode.connections].
  now rewrite (newNodes_fresh d p nd0 Hnd0).
Qed.

End Order.

(** ** Dependence on the random source *)

Section Determinism.
Context `{N : Number}.
Variable p : NetworkParams.

Lemma nodeAt_agree (d1 d2 : nat -> num) i k :
  (forall j, (k <= j < k + 6)%nat -> d1 j = d2 j) ->
  nodeAt d1 p i k = nodeAt d2 p i k.
Proof.
  intros H.
  cbv [nodeAt placeNode FogNodeImpl generateRandomColor bind ret Math_random fst].
  rewrite !H by lia. reflexivity.
Qed.

Lemma newNodes_agree (d1 d2 : nat -> num) :
  (forall k, (k < 6 * Z.to_nat (numNodes p))%nat -> d1 k = d2 k) ->
  newNodes d1 p = newNodes d2 p.
Proof.
  intros H. apply list_eq. intros j.
  destruct (decide (j < Z.to_nat (numNodes p))%nat) as [Hj|Hj].
  - rewrite !newNodes_lookup by exact Hj. f_equal.
    apply nodeAt_agree. intros k Hk. apply H. lia.
  - rewrite !lookup_ge_None_2 by (rewrite newNodes_length; lia). reflexivity.
Qed.

(** C8.  Two generation calls with the same parameters whose random
    sources agree on the draws a call makes (six per node: x, y,
    resources and the three colour channels) return the same nodes and
    the same edges. *)
Theorem generation_deterministic (d1 d2 : nat -> num) :
  (forall k, (k < 6 * Z.to_nat (numNodes p))%nat -> d1 k = d2 k) ->
  generated_nodes d1 p = generated_nodes d2 p
  /\ generated_edges d1 p = generated_edges d2 p.
Proof.
  intros H. unfold generated_nodes, generated_edges.
  rewrite !initializeNetwork_unfold, (newNodes_agree d1 d2 H). split; reflexivity.
Qed.

End Determinism.

(** ** Views of the output *)

(** The ends of an edge. *)
Definition ends `{N : Number} (e : Edge.t) : Z * Z := (Edge.from e, Edge.to e).

(** The fields of an edge and of a node, as tuples. *)
Definition edge_fields `{N : Number} (e : Edge.t) : Z * Z * num :=
  (Edge.from e, Edge.to e, Edge.length e).

Definition node_fields `{N : Number} (nd : FogNode.t)
  : Z * num * num * num * list Z * string :=
  (FogNode.id nd, FogNode.x nd, FogNode.y nd, FogNode.resources nd,
   FogNode.connections nd, FogNode.color nd).

(** ** Runs on binary64 *)

(** A random source cycling through 0, 1/8, ..., 7/8; all the values a
    run computes from it are exact in binary64. *)
Definition sample_draws (k : nat) : float :=
  (float_of_Z (Z.of_nat (k mod 8)) / 8)%float.

(** The same source up to draw 29, and 0 from then on. *)
Definition sample_draws_cut (k : nat) : float :=
  if (k <? 30)%nat then sample_draws k else 0%float.

Definition sample_params : @NetworkParams Float64 :=
  MkNetworkParams Float64 5 150%float 2 100%float.

(** numNodes=5, proximityThreshold=0. *)
Definition zero_threshold_params : @NetworkParams Float64 :=
  MkNetworkParams Float64 5 0%float 2 100%float.

(** The first four nodes only: they are pairwise apart. *)
Definition four_apart_params : @NetworkParams Float64 :=
  MkNetworkParams Float64 4 0%float 2 100%float.

Lemma sample_draws_unit k :
  (0 <=? sample_draws k)%float = true /\ (sample_draws k <? 1)%float = true.
Proof.
  unfold sample_draws. pose proof (Nat.mod_upper_bound k 8 ltac:(lia)) as Hr.
  destruct (k mod 8)%nat as [|[|[|[|[|[|[|[|r]]]]]]]];
    try (split; reflexivity). lia.
Qed.

(** Nodes 0 and 4 fall on the same point; node 3 is 125 away from nodes 0,
    2 and 4.  Node 0 lists 3 before the nearer 4, and node 3 stops at its
    cap before reaching 4. *)
Example sample_run_edges :
  @edge_fields Float64 <$> @generated_edges Float64 sample_draws sample_params
  = [(0, 3, 125%float); (0, 4, 0%float);
     (1, 2, 125%float);
     (2, 1, 125%float); (2, 3, 125%float);
     (3, 0, 125%float); (3, 2, 125%float);
     (4, 0, 0%float); (4, 3, 125%float)].
Proof. vm_compute. reflexivity. Qed.

Example sample_run_node3 :
  @node_fields Float64 <$> (@generated_nodes Float64 sample_draws sample_params !! 3%nat)
  = Some (3, 100%float, 112.5%float, 50%float, [0; 2], "rgb(125, 150, 175)"%string).
Proof. vm_compute. reflexivity. Qed.

(** The largest binary64 below 1 is the largest draw: scaled, it still
    lies inside the box, and the corner it reaches is within 500 of the
    opposite corner. *)
Example largest_draw_in_box :
  let top := PrimFloat.next_down 1 in
  (top <? 1)%float = true
  /\ (top * 400 <? 400)%float = true
  /\ (top * 300 <? 300)%float = true
  /\ (PrimFloat.sqrt ((top * 400 - 0) * (top * 400 - 0)
                       + (top * 300 - 0) * (top * 300 - 0)) <=? 500)%float = true.
Proof. vm_compute. repeat split. Qed.

(** C5, as stated, fails: in the scenario numNodes=5,
    proximityThreshold=0, with draws that are all in [0, 1), nodes 0 and 4
    are placed on the same point and are joined by two edges of length 0. *)
Lemma zero_threshold_coincident_nodes_connect :
  (forall k, (0 <=? sample_draws k)%float = true /\ (sample_draws k <? 1)%float = true)
  /\ numNodes zero_threshold_params = 5
  /\ proximityThreshold zero_threshold_params = 0%float
  /\ @edge_fields Float64 <$> @generated_edges Float64 sample_draws zero_threshold_params
     = [(0, 4, 0%float); (4, 0, 0%float)]
  /\ @generated_edges Float64 sample_draws zero_threshold_params <> [].
Proof.
  split; [apply sample_draws_unit|]. do 2 (split; [reflexivity|]).
  assert (E : @edge_fields Float64 <$> @generated_edges Float64 sample_draws zero_threshold_params
              = [(0, 4, 0%float); (4, 0, 0%float)])
    by (vm_compute; reflexivity).
  split; [exact E|]. intros Hnil. rewrite Hnil in E. discriminate E.
Qed.



(** *** Instances of the theorems that have hypotheses *)


Lemma out_degree_capped_witness :
  0 <= maxConnections sample_params
  /\ Forall (fun nd =>
       Z.of_nat (List.length (out_edges (FogNode.id nd)
                   (@generated_edges Float64 sample_draws sample_params)))
       <= maxConnections sample_params)
     (@generated_nodes Float64 sample_draws sample_params).
Proof.
  split; [simpl; lia|].
  apply (@out_degree_capped Float64 sample_draws sample_params). simpl. lia.
Defined.

Lemma generation_deterministic_witness :
  (forall k, (k < 6 * Z.to_nat (numNodes sample_params))%nat ->
     sample_draws k = sample_draws_cut k)
  /\ @generated_nodes Float64 sample_draws sample_params
     = @generated_nodes Float64 sample_draws_cut sample_params
  /\ @generated_edges Float64 sample_draws sample_params
     = @generated_edges Float64 sample_draws_cut sample_params.
Proof.
  assert (H : forall k, (k < 6 * Z.to_nat (numNodes sample_params))%nat ->
                        sample_draws k = sample_draws_cut k).
  { intros k Hk. unfold sample_draws_cut.
    destruct (Nat.ltb_spec k 30) as [_|Hge]; [reflexivity|]. simpl in Hk. lia. }
  split; [exact H|].
  exact (@generation_deterministic Float64 sample_params sample_draws sample_draws_cut H).
Defined.

(** The three-node scenario run on binary64. *)
Example three_nodes_binary64 :
  @ends Float64 <$> @generated_edges Float64 sample_draws
             (MkNetworkParams Float64 3 1000%float 2 100%float)
  = [(0, 1); (0, 2); (1, 0); (1, 2); (2, 0); (2, 1)].
Proof. vm_compute. reflexivity. Qed.

(** * Further properties of the page *)

(** ** The draws of a generation call, and what each one becomes *)

(** The stream seen by a call that starts after [k] draws. *)
Definition shift_draws `{N : Number} (k : nat) (d : nat -> num) : nat -> num :=
  fun j => d (k + j)%nat.

(** The colour string of three channel values. *)
Definition rgb (r g b : Z) : string :=
  ("rgb(" ++ decimal r ++ ", " ++ decimal g ++ ", " ++ decimal b ++ ")")%string.

(** The fields of a node that are set by the constructor. *)
Definition fixed_fields `{N : Number} (nd : FogNode.t) : Z * num * num * num * string :=
  (FogNode.id nd, FogNode.x nd, FogNode.y nd, FogNode.resources nd, FogNode.color nd).

Section DrawAccounting.
Context `{N : Number}.
Variable d : nat -> num.
Variable p : NetworkParams.

Lemma nodeAt_shift i k j : nodeAt d p i (k + j) = nodeAt (shift_draws k d) p i j.
Proof.
  cbv [nodeAt placeNode FogNodeImpl generateRandomColor bind ret Math_random fst
       shift_draws].
  rewrite <- !plus_n_Sm. reflexivity.
Qed.


Lemma Array_from_shift k :
  (Array_from (numNodes p) (placeNode d p) k).1 = newNodes (shift_draws k d) p.
Proof.
  apply list_eq. intros j. unfold newNodes, Array_from.
  destruct (decide (j < Z.to_nat (numNodes p))%nat) as [Hj|Hj].
  - rewrite !placed_lookup by exact Hj.
    replace (6 * j + k)%nat with (k + 6 * j)%nat by lia.
    rewrite nodeAt_shift, Nat.add_0_r. reflexivity.
  - rewrite !lookup_ge_None_2 by (rewrite Array_from_loop_length; lia). reflexivity.
Qed.


(** X2.  Node [i] is built from draws 6i .. 6i+5, in this order: x, y,
    resources, then the red, green and blue channels. *)
Theorem node_fields_from_draws :
  fixed_fields <$> generated_nodes d p
  = (fun i : nat =>
       (Z.of_nat i,
        d (6 * i)%nat * num_of_Z 400,
        d (6 * i + 1)%nat * num_of_Z 300,
        d (6 * i + 2)%nat * resourceCapacity p,
        rgb (num_floor (d (6 * i + 3)%nat * num_of_Z 200))
            (num_floor (d (6 * i + 4)%nat * num_of_Z 200))
            (num_floor (d (6 * i + 5)%nat * num_of_Z 200))))%num
    <$> seq 0 (Z.to_nat (numNodes p)).
Proof.
  rewrite generated_nodes_eq. apply list_eq. intros j.
  rewrite !list_lookup_fmap.
  destruct (decide (j < Z.to_nat (numNodes p))%nat) as [Hj|Hj].
  - rewrite newNodes_lookup, lookup_seq_lt by exact Hj. cbn [fmap option_fmap option_map].
    change (0 + j)%nat with j.
    replace (6 * j + 1)%nat with (S (6 * j)) by lia.
    replace (6 * j + 2)%nat with (S (S (6 * j))) by lia.
    replace (6 * j + 3)%nat with (S (S (S (6 * j)))) by lia.
    replace (6 * j + 4)%nat with (S (S (S (S (6 * j))))) by lia.
    replace (6 * j + 5)%nat with (S (S (S (S (S (6 * j)))))) by lia.
    reflexivity.
  - rewrite (lookup_ge_None_2 (newNodes d p)) by (rewrite newNodes_length; lia).
    rewrite lookup_seq_ge by lia. reflexivity.
Qed.

End DrawAccounting.

(** ** Degenerate parameters *)

Section Degenerate.
Context `{N : Number}.
Variable d : nat -> num.
Variable p : NetworkParams.

Lemma flat_map_all_nil {A B} (f : A -> list B) (l : list A) :
  (forall a, a ∈ l -> f a = []) -> flat_map f l = [].
Proof.
  induction l as [|a l IH]; intros H; [reflexivity|]. cbn [flat_map].
  rewrite (H a) by left. apply IH. intros b Hb. apply H. now right.
Qed.

(** X3.  With [numNodes <= 0] the call returns no node and no edge. *)
Theorem no_nodes_when_count_not_positive :
  numNodes p <= 0 -> initializeNetwork d p = ([], []).
Proof.
  intros Hn. rewrite initializeNetwork_unfold.
  assert (E : newNodes d p = []).
  { apply nil_length_inv. rewrite newNodes_length. lia. }
  rewrite E. reflexivity.
Qed.

(** X4.  With [maxConnections <= 0] (a negative value included, where
    [slice(0, maxConnections)] would otherwise count from the end) no edge
    is created and every [connections] list stays empty. *)
Theorem no_edges_when_cap_not_positive :
  maxConnections p <= 0 ->
  generated_edges d p = []
  /\ Forall (fun nd => FogNode.connections nd = []) (generated_nodes d p).
Proof.
  intros Hm.
  assert (Hc : forall nd, nd ∈ newNodes d p -> candidates p (newNodes d p) nd = []).
  { intros nd Hnd. rewrite candidates_prefix by now apply (newNodes_fresh d p).
    replace (Z.to_nat (maxConnections p)) with 0%nat by lia. reflexivity. }
  split.
  - rewrite generated_edges_eq. apply flat_map_all_nil.
    intros nd Hnd. unfold outgoing. now rewrite Hc.
  - apply Forall_forall. intros nd (nd0 & Hnd0 & ->)%generated_node_inv.
    cbn [processed push_connections FogNode.connections].
    rewrite Hc by exact Hnd0. rewrite (newNodes_fresh d p nd0 Hnd0). reflexivity.
Qed.

(** X5.  With [numNodes = 1] the output is the single node 0 and no edge:
    the only node is rejected by the [id] test of the filter. *)
Theorem single_node_has_no_edges :
  numNodes p = 1 ->
  FogNode.id <$> generated_nodes d p = [0] /\ generated_edges d p = [].
Proof.
  intros Hn. split.
  - rewrite generated_nodes_ids, Hn. reflexivity.
  - rewrite generated_edges_eq. apply flat_map_all_nil. intros nd Hnd.
    unfold outgoing. rewrite candidates_prefix by now apply (newNodes_fresh d p).
    assert (E : List.filter (within_reach p nd) (newNodes d p) = []).
    { apply list_elem_of_lookup in Hnd as [i Hi].
      apply newNodes_lookup_inv in Hi as [Hi ->].
      assert (HL : newNodes d p = [nodeAt d p 0 0]).
      { apply list_eq. intros [|j].
        - rewrite newNodes_lookup by lia. reflexivity.
        - rewrite lookup_ge_None_2 by (rewrite newNodes_length; lia). reflexivity. }
      rewrite HL. cbn [List.filter]. unfold within_reach.
      rewrite !nodeAt_id. replace (Z.of_nat i) with 0 by lia. reflexivity. }
    rewrite E, take_nil. reflexivity.
Qed.

End Degenerate.

(** ** Counting edges *)

(** [nodes.find(n => n.id === edge.from)] and
    [nodes.find(n => n.id === edge.to)] of the rendering (page.tsx:209-210);
    [None] is [undefined]. *)
Definition fromNode `{N : Number} (nodes : list FogNode.t) (edge : Edge.t)
  : option FogNode.t :=
  List.find (fun n => FogNode.id n =? Edge.from edge) nodes.

Definition toNode `{N : Number} (nodes : list FogNode.t) (edge : Edge.t)
  : option FogNode.t :=
  List.find (fun n => FogNode.id n =? Edge.to edge) nodes.

Section CountFacts.
Context {A : Type}.

Lemma filter_partition_length (f : A -> bool) (l : list A) :
  (List.length (List.filter f l) + List.length (List.filter (fun a => negb (f a)) l)
   = List.length l)%nat.
Proof.
  induction l as [|a l IH]; [reflexivity|]. cbn [List.filter].
  destruct (f a); cbn [negb List.length]; lia.
Qed.

Lemma filter_length_mono (f g : A -> bool) (l : list A) :
  (forall a, f a = true -> g a = true) ->
  (List.length (List.filter f l) <= List.length (List.filter g l))%nat.
Proof.
  intros Hfg. induction l as [|a l IH]; [reflexivity|]. cbn [List.filter].
  destruct (f a) eqn:Ef.
  - rewrite (Hfg a Ef). cbn [List.length]. lia.
  - destruct (g a); cbn [List.length]; lia.
Qed.

Lemma flat_map_length_sum {B} (f : A -> list B) (l : list A) :
  List.length (flat_map f l) = sum_list_with (fun a => List.length (f a)) l.
Proof.
  induction l as [|a l IH]; [reflexivity|]. cbn [flat_map sum_list_with].
  rewrite length_app, IH. reflexivity.
Qed.

Lemma sum_list_with_bound (g : A -> nat) (c : nat) (l : list A) :
  (forall a, a ∈ l -> g a <= c)%nat -> (sum_list_with g l <= List.length l * c)%nat.
Proof.
  induction l as [|a l IH]; intros H; [reflexivity|]. cbn [sum_list_with List.length].
  pose proof (H a ltac:(left)). specialize (IH (fun b Hb => H b ltac:(now right))). lia.
Qed.

Lemma sum_list_with_ext_elem (g h : A -> nat) (l : list A) :
  (forall a, a ∈ l -> g a = h a) -> sum_list_with g l = sum_list_with h l.
Proof.
  induction l as [|a l IH]; intros H; [reflexivity|]. cbn [sum_list_with].
  rewrite (H a) by left. rewrite IH; [reflexivity|]. intros b Hb. apply H. now right.
Qed.

Lemma sum_list_with_fmap {B} (f : A -> B) (g : B -> nat) (l : list A) :
  sum_list_with g (f <$> l) = sum_list_with (fun a => g (f a)) l.
Proof.
  induction l as [|a l IH]; [reflexivity|]. cbn [fmap list_fmap sum_list_with].
  now rewrite <- IH.
Qed.

Lemma NoDup_filter_fmap {B} (f : A -> B) (P : A -> bool) (l : list A) :
  NoDup (f <$> l) -> NoDup (f <$> List.filter P l).
Proof.
  induction l as [|a l IH]; [trivial|]. cbn [fmap list_fmap List.filter].
  intros [Ha Hl]%NoDup_cons. destruct (P a); [|now apply IH].
  cbn [fmap list_fmap]. apply NoDup_cons. split; [|now apply IH].
  intros (b & Hb & Hin)%list_elem_of_fmap. apply Ha. rewrite Hb.
  apply list_elem_of_fmap_2. apply list_elem_of_In, filter_In in Hin as [Hin _].
  now apply list_elem_of_In.
Qed.

End CountFacts.

Section Counting.
Context `{N : Number}.
Variable d : nat -> num.
Variable p : NetworkParams.

Lemma newNodes_NoDup_ids : NoDup (FogNode.id <$> newNodes d p).
Proof.
  rewrite newNodes_ids. apply NoDup_fmap_2; [|apply NoDup_seq]. intros a b. lia.
Qed.

Lemma processed_connections_length nd :
  nd ∈ newNodes d p ->
  List.length (FogNode.connections (processed p (newNodes d p) nd))
  = List.length (outgoing p (newNodes d p) nd).
Proof.
  intros Hnd. cbn [processed push_connections FogNode.connections].
  rewrite (newNodes_fresh d p nd Hnd). unfold outgoing.
  now rewrite app_nil_l, !length_fmap.
Qed.

(** X6.  The "Total Connections" statistic, [edges.length], is the sum of
    the lengths of the nodes' [connections] lists. *)
Theorem edge_count_is_sum_of_connections :
  List.length (generated_edges d p)
  = sum_list_with (fun nd => List.length (FogNode.connections nd)) (generated_nodes d p).
Proof.
  rewrite generated_edges_eq, generated_nodes_eq, flat_map_length_sum, sum_list_with_fmap.
  apply sum_list_with_ext_elem. intros nd Hnd. symmetry.
  now apply processed_connections_length.
Qed.

Lemma within_reach_others_length nd :
  nd ∈ newNodes d p ->
  (List.length (List.filter (within_reach p nd) (newNodes d p))
   <= List.length (newNodes d p) - 1)%nat.
Proof.
  intros Hnd.
  pose proof (filter_partition_length (fun a => FogNode.id a =? FogNode.id nd)
                (newNodes d p)) as Hpart.
  rewrite (filter_unique_id _ nd newNodes_NoDup_ids Hnd) in Hpart.
  cbn [List.length] in Hpart.
  pose proof (filter_length_mono (within_reach p nd)
                (fun a => negb (FogNode.id a =? FogNode.id nd)) (newNodes d p)) as Hle.
  assert (Himp : forall a, within_reach p nd a = true ->
                           negb (FogNode.id a =? FogNode.id nd) = true).
  { intros a. unfold within_reach. rewrite andb_true_iff. tauto. }
  specialize (Hle Himp). lia.
Qed.

(** X7.  For [numNodes >= 0] and [maxConnections >= 0] the number of edges
    is at most [numNodes * min(maxConnections, numNodes - 1)]. *)
Theorem edge_count_bounded :
  0 <= numNodes p -> 0 <= maxConnections p ->
  Z.of_nat (List.length (generated_edges d p))
  <= numNodes p * Z.min (maxConnections p) (numNodes p - 1).
Proof.
  intros Hn Hm. rewrite generated_edges_eq, flat_map_length_sum.
  destruct (decide (numNodes p = 0)) as [E0|Hpos].
  { assert (E : newNodes d p = []).
    { apply nil_length_inv. rewrite newNodes_length. lia. }
    rewrite E. cbn. lia. }
  pose proof (sum_list_with_bound
                (fun nd => List.length (outgoing p (newNodes d p) nd))
                (Z.to_nat (Z.min (maxConnections p) (numNodes p - 1)))
                (newNodes d p)) as Hsum.
  rewrite newNodes_length in Hsum.
  assert (Hall : forall nd, nd ∈ newNodes d p ->
            (List.length (outgoing p (newNodes d p) nd)
             <= Z.to_nat (Z.min (maxConnections p) (numNodes p - 1)))%nat).
  { intros nd Hnd. unfold outgoing. rewrite length_fmap.
    rewrite candidates_prefix by now apply (newNodes_fresh d p).
    rewrite length_take. pose proof (within_reach_others_length nd Hnd) as Hle.
    rewrite newNodes_length in Hle. lia. }
  specialize (Hsum Hall). nia.
Qed.

Lemma NoDup_ends_flat_map (L l : list FogNode.t) :
  (forall nd, nd ∈ l -> NoDup (ends <$> outgoing p L nd)) ->
  NoDup (FogNode.id <$> l) ->
  NoDup (ends <$> flat_map (outgoing p L) l).
Proof.
  assert (Hfrom : forall nd e, e ∈ outgoing p L nd -> (ends e).1 = FogNode.id nd).
  { intros nd e (c & -> & _)%list_elem_of_fmap. reflexivity. }
  induction l as [|a l IH]; intros Hgroup Hids; [constructor|].
  cbn [fmap list_fmap] in Hids. apply NoDup_cons in Hids as [Ha Hids].
  cbn [flat_map]. rewrite fmap_app. apply NoDup_app. split; [|split].
  - apply Hgroup. left.
  - intros pr (e1 & -> & He1)%list_elem_of_fmap (e2 & Heq & He2)%list_elem_of_fmap.
    apply list_elem_of_In, in_flat_map in He2 as (b & Hb & He2).
    apply Ha. apply list_elem_of_fmap. exists b. split; [|now apply list_elem_of_In].
    rewrite <- (Hfrom a e1 He1), <- (Hfrom b e2 (proj2 (list_elem_of_In _ _) He2)).
    now rewrite Heq.
  - apply IH; [|exact Hids]. intros nd Hnd. apply Hgroup. now right.
Qed.

(** X8.  No ordered pair of nodes is joined twice: the [(from, to)] pairs
    of the output are pairwise distinct. *)
Theorem no_duplicate_edges : NoDup (ends <$> generated_edges d p).
Proof.
  rewrite generated_edges_eq.
  assert (Hgroup : forall nd, nd ∈ newNodes d p ->
            NoDup (ends <$> outgoing p (newNodes d p) nd)).
  { intros nd Hnd. unfold outgoing. rewrite <- list_fmap_compose.
    rewrite (list_fmap_ext _ (pair (FogNode.id nd) ∘ FogNode.id)
               (candidates p (newNodes d p) nd)) by (intros; reflexivity).
    rewrite list_fmap_compose. apply NoDup_fmap_2; [apply _|].
    rewrite candidates_prefix by now apply (newNodes_fresh d p).
    rewrite fmap_take. eapply sublist_NoDup; [|apply sublist_take].
    apply NoDup_filter_fmap, newNodes_NoDup_ids. }
  apply NoDup_ends_flat_map; [|apply newNodes_NoDup_ids].
  intros nd Hnd. now apply Hgroup.
Qed.

Lemma find_unique_id (l : list FogNode.t) nd :
  NoDup (FogNode.id <$> l) -> nd ∈ l ->
  List.find (fun n => FogNode.id n =? FogNode.id nd) l = Some nd.
Proof.
  induction l as [|a l IH]; intros Hnd Hin.
  - now apply elem_of_nil in Hin.
  - cbn [fmap list_fmap] in Hnd. apply NoDup_cons in Hnd as [Ha Hnd].
    cbn [List.find]. apply elem_of_cons in Hin as [->|Hin].
    + now rewrite Z.eqb_refl.
    + destruct (Z.eqb_spec (FogNode.id a) (FogNode.id nd)) as [E|E].
      * exfalso. apply Ha. rewrite E. now apply list_elem_of_fmap_2.
      * now apply IH.
Qed.

(** X9.  Rendering never meets [undefined]: for every edge of the output
    both [find] calls succeed, and they return the nodes stored at the
    indices [edge.from] and [edge.to]. *)
Theorem edge_endpoints_found :
  Forall (fun e =>
    exists a b,
      fromNode (generated_nodes d p) e = Some a
      /\ toNode (generated_nodes d p) e = Some b
      /\ generated_nodes d p !! Z.to_nat (Edge.from e) = Some a
      /\ generated_nodes d p !! Z.to_nat (Edge.to e) = Some b)
    (generated_edges d p).
Proof.
  apply Forall_forall. intros e (nd & c & Hnd & Hc & _ & ->)%generated_edge_inv.
  assert (Hids : NoDup (FogNode.id <$> generated_nodes d p))
    by (rewrite generated_nodes_ids; apply NoDup_seqZ).
  assert (Hat : forall n0, n0 ∈ newNodes d p ->
            processed p (newNodes d p) n0 ∈ generated_nodes d p
            /\ generated_nodes d p !! Z.to_nat (FogNode.id n0)
               = Some (processed p (newNodes d p) n0)).
  { intros n0 Hn0. rewrite generated_nodes_eq.
    split; [now apply list_elem_of_fmap_2|].
    apply list_elem_of_lookup in Hn0 as [i Hi]. rewrite list_lookup_fmap.
    pose proof (newNodes_lookup_inv d p i n0 Hi) as [_ ->].
    rewrite nodeAt_id, Nat2Z.id, Hi. reflexivity. }
  destruct (Hat nd Hnd) as [Hin1 Hl1]. destruct (Hat c Hc) as [Hin2 Hl2].
  exists (processed p (newNodes d p) nd), (processed p (newNodes d p) c).
  split; [exact (find_unique_id _ _ Hids Hin1)|].
  split; [exact (find_unique_id _ _ Hids Hin2)|].
  split; [exact Hl1 | exact Hl2].
Qed.

End Counting.

(** ** Statistics *)

(** [nodes.reduce((sum, node) => sum + node.resources, 0)], the
    "Total Network Resources" statistic before formatting (page.tsx:247). *)
Definition totalResources `{N : Number} (nodes : list FogNode.t) : num :=
  foldl (fun sum node => (sum + FogNode.resources node)%num) (num_of_Z 0) nodes.

(** ** When the distance test plays no part *)

Section AllReachable.
Context `{N : Number}.
Variable d : nat -> num.
Variable p : NetworkParams.

Lemma generated_node_at nd :
  nd ∈ generated_nodes d p ->
  exists j, nd = processed p (newNodes d p) (nodeAt d p (Z.of_nat j) (6 * j)).
Proof.
  intros (nd0 & [j Hj]%list_elem_of_lookup & ->)%generated_node_inv.
  apply newNodes_lookup_inv in Hj as [_ ->]. now exists j.
Qed.

Lemma others_length nd :
  nd ∈ newNodes d p ->
  List.length (List.filter (fun b => negb (FogNode.id b =? FogNode.id nd)) (newNodes d p))
  = (List.length (newNodes d p) - 1)%nat.
Proof.
  intros Hnd.
  pose proof (filter_partition_length (fun a => FogNode.id a =? FogNode.id nd)
                (newNodes d p)) as Hpart.
  rewrite (filter_unique_id _ nd (newNodes_NoDup_ids d p) Hnd) in Hpart.
  cbn [List.length] in Hpart. lia.
Qed.

(** A node within reach of another gets at least one edge, if the cap
    allows any. *)
Lemma edge_when_within_reach a b :
  a ∈ newNodes d p -> b ∈ newNodes d p ->
  within_reach p a b = true -> 1 <= maxConnections p ->
  generated_edges d p <> [].
Proof.
  intros Ha Hb Hreach Hcap Hnil.
  assert (Hc : exists c, c ∈ candidates p (newNodes d p) a).
  { rewrite candidates_prefix by now apply (newNodes_fresh d p).
    assert (Hf : b ∈ List.filter (within_reach p a) (newNodes d p)).
    { apply list_elem_of_In, filter_In. split; [now apply list_elem_of_In|exact Hreach]. }
    destruct (List.filter (within_reach p a) (newNodes d p)) as [|c l];
      [now apply elem_of_nil in Hf|].
    exists c.
    replace (Z.to_nat (maxConnections p)) with (S (Z.to_nat (maxConnections p - 1)))
      by lia.
    simpl. left. }
  destruct Hc as [c Hc].
  assert (He : newEdge a c ∈ generated_edges d p).
  { rewrite generated_edges_eq. apply list_elem_of_In, in_flat_map.
    exists a. split; [now apply list_elem_of_In|].
    apply list_elem_of_In. unfold outgoing. now apply list_elem_of_fmap_2. }
  rewrite Hnil in He. now apply elem_of_nil in He.
Qed.

(** When the distance is symmetric and the cap cannot bind, every edge
    comes with its reverse. *)
Lemma reverse_edge_when_cap_is_slack :
  (forall a b : FogNode.t, calculateProximity a b = calculateProximity b a) ->
  numNodes p - 1 <= maxConnections p ->
  Forall (fun e => (Edge.to e, Edge.from e) ∈ ends <$> generated_edges d p)
    (generated_edges d p).
Proof.
  intros Hsym Hslack. apply Forall_forall.
  intros e (nd & c & Hnd & Hc & Hel & ->)%generated_edge_inv.
  apply eligible_inv in Hel as (Hid & Hle & _).
  cbn [newEdge Edge.to Edge.from].
  apply list_elem_of_fmap. exists (newEdge c nd). split; [reflexivity|].
  rewrite generated_edges_eq.
  apply list_elem_of_In, in_flat_map. exists c. split; [now apply list_elem_of_In|].
  apply list_elem_of_In. unfold outgoing. apply list_elem_of_fmap_2.
  rewrite candidates_prefix by now apply (newNodes_fresh d p).
  rewrite take_ge.
  - apply list_elem_of_In, filter_In. split; [now apply list_elem_of_In|].
    unfold within_reach. rewrite Hsym, Hle, andb_true_r.
    apply negb_true_iff, Z.eqb_neq. congruence.
  - pose proof (within_reach_others_length d p c Hc) as Hlen.
    rewrite newNodes_length in Hlen. lia.
Qed.

(** Every two placed nodes pass the distance test of the filter. *)
Hypothesis Hreach : forall a b,
  a ∈ newNodes d p -> b ∈ newNodes d p ->
  (calculateProximity a b <=? proximityThreshold p)%num = true.

Lemma ends_outgoing_all_reachable nd :
  nd ∈ newNodes d p ->
  ends <$> outgoing p (newNodes d p) nd
  = (fun c => (FogNode.id nd, FogNode.id c))
    <$> take (Z.to_nat (maxConnections p))
          (List.filter (fun b => negb (FogNode.id b =? FogNode.id nd)) (newNodes d p)).
Proof.
  intros Hnd. unfold outgoing. rewrite <- list_fmap_compose.
  rewrite candidates_prefix by now apply (newNodes_fresh d p).
  rewrite (filter_ext_in (within_reach p nd)
             (fun b => negb (FogNode.id b =? FogNode.id nd))).
  - apply list_fmap_ext. intros; reflexivity.
  - intros b Hb%list_elem_of_In. unfold within_reach.
    rewrite (Hreach nd b Hnd Hb). apply andb_true_r.
Qed.

Lemma out_degree_all_reachable :
  1 <= numNodes p -> 0 <= maxConnections p ->
  Forall (fun nd =>
            Z.of_nat (List.length (out_edges (FogNode.id nd) (generated_edges d p)))
            = Z.min (maxConnections p) (numNodes p - 1))
    (generated_nodes d p).
Proof.
  intros Hn Hm. apply Forall_forall.
  intros nd (nd0 & Hnd0 & ->)%generated_node_inv.
  cbn [processed push_connections FogNode.id].
  rewrite (out_edges_generated d p nd0 Hnd0).
  rewrite <- (length_fmap ends).
  rewrite (ends_outgoing_all_reachable nd0 Hnd0).
  rewrite length_fmap, length_take, (others_length nd0 Hnd0), newNodes_length.
  lia.
Qed.

End AllReachable.

(** * Binary64 arithmetic: values and bounds

    What the geometry of the generator needs to know of rounding,
    derived from the specification of the primitive floats ([SpecFloat]:
    [SFmul], [SFadd], [SFsub], [SFsqrt] and [SFcompare], which [Prim2SF]
    relates to the operations on [float]).  A finite float is
    [m * 2^e]; the central fact, [binary_round_aux_below], is that
    rounding to nearest never carries a quantity past a float that
    bounds it. *)

(** [2^e] and [m * 2^e] as real numbers. *)
Definition bpow (e : Z) : R := powerRZ 2 e.

Definition F2R (m e : Z) : R := (IZR m * bpow e)%R.

(** The real value of a float ([0] for infinities and NaN). *)
Definition SF2R (x : spec_float) : R :=
  match x with
  | S754_finite s m e => F2R (cond_Zopp s (Zpos m)) e
  | _ => 0%R
  end.

Definition SF_finite (x : spec_float) : bool :=
  match x with
  | S754_finite _ _ _ | S754_zero _ => true
  | _ => false
  end.

Section Bpow.
Local Open Scope R_scope.

Lemma bpow_gt_0 e : 0 < bpow e.
Proof. apply powerRZ_lt. lra. Qed.

Lemma bpow_add a b : bpow (a + b) = bpow a * bpow b.
Proof. apply powerRZ_add. lra. Qed.

Lemma bpow_succ e : bpow (e + 1) = 2 * bpow e.
Proof. rewrite bpow_add. unfold bpow at 2. simpl. lra. Qed.

Lemma bpow_IZR (k : Z) : (0 <= k)%Z -> bpow k = IZR (2 ^ k).
Proof.
  intros Hk. unfold bpow. rewrite <- (Z2Nat.id k Hk) at 1.
  rewrite <- pow_powerRZ. rewrite <- (Z2Nat.id k Hk) at 2.
  rewrite <- Zpower_nat_Z. generalize (Z.to_nat k). intros n.
  induction n as [|n IH]; [reflexivity|].
  rewrite Zpower_nat_succ_r, mult_IZR, <- IH. simpl. lra.
Qed.

Lemma bpow_le a b : (a <= b)%Z -> bpow a <= bpow b.
Proof.
  intros H. replace b with (a + (b - a))%Z by lia. rewrite bpow_add.
  rewrite (bpow_IZR (b - a)) by lia.
  assert (1 <= IZR (2 ^ (b - a))).
  { apply IZR_le. pose proof (Z.pow_pos_nonneg 2 (b - a)). lia. }
  pose proof (bpow_gt_0 a). nra.
Qed.

Lemma bpow_lt a b : (a < b)%Z -> bpow a < bpow b.
Proof.
  intros H. apply Rlt_le_trans with (bpow (a + 1)); [|apply bpow_le; lia].
  rewrite bpow_succ. pose proof (bpow_gt_0 a). lra.
Qed.

Lemma F2R_change_exp m e e' :
  (e' <= e)%Z -> F2R m e = F2R (m * 2 ^ (e - e')) e'.
Proof.
  intros H. unfold F2R. rewrite mult_IZR, <- bpow_IZR by lia.
  rewrite Rmult_assoc, <- bpow_add. f_equal. f_equal. lia.
Qed.

Lemma F2R_le m1 m2 e : (m1 <= m2)%Z -> F2R m1 e <= F2R m2 e.
Proof.
  intros H. unfold F2R. apply IZR_le in H. pose proof (bpow_gt_0 e). nra.
Qed.

Lemma F2R_lt m1 m2 e : (m1 < m2)%Z -> F2R m1 e < F2R m2 e.
Proof.
  intros H. unfold F2R. apply IZR_lt in H. pose proof (bpow_gt_0 e). nra.
Qed.

Lemma F2R_le_inv m1 m2 e : F2R m1 e <= F2R m2 e -> (m1 <= m2)%Z.
Proof.
  intros H. destruct (Z_le_gt_dec m1 m2) as [Hle|Hgt]; [exact Hle|].
  exfalso. assert (F2R m2 e < F2R m1 e) by (apply F2R_lt; lia). lra.
Qed.

Lemma F2R_lt_inv m1 m2 e : F2R m1 e < F2R m2 e -> (m1 < m2)%Z.
Proof.
  intros H. destruct (Z_lt_ge_dec m1 m2) as [Hlt|Hge]; [exact Hlt|].
  exfalso. assert (F2R m2 e <= F2R m1 e) by (apply F2R_le; lia). lra.
Qed.

Lemma F2R_lt_bpow m k e : (0 <= k)%Z -> (m < 2 ^ k)%Z -> F2R m e < bpow (k + e).
Proof.
  intros Hk H. rewrite bpow_add, bpow_IZR by exact Hk.
  apply IZR_lt in H. unfold F2R. pose proof (bpow_gt_0 e). nra.
Qed.

Lemma F2R_ge_bpow m k e : (0 <= k)%Z -> (2 ^ k <= m)%Z -> bpow (k + e) <= F2R m e.
Proof.
  intros Hk H. rewrite bpow_add, bpow_IZR by exact Hk.
  apply IZR_le in H. unfold F2R. pose proof (bpow_gt_0 e). nra.
Qed.

Lemma F2R_pos m e : (0 < m)%Z -> 0 < F2R m e.
Proof.
  intros H. unfold F2R. apply IZR_lt in H. pose proof (bpow_gt_0 e). nra.
Qed.

Lemma F2R_opp m e : F2R (- m) e = - F2R m e.
Proof. unfold F2R. rewrite opp_IZR. lra. Qed.

Lemma F2R_mul m1 e1 m2 e2 : F2R (m1 * m2) (e1 + e2) = F2R m1 e1 * F2R m2 e2.
Proof. unfold F2R. rewrite mult_IZR, bpow_add. lra. Qed.

Lemma F2R_0 e : F2R 0 e = 0.
Proof. unfold F2R. lra. Qed.

End Bpow.

(** ** Digits and canonical floats *)

Lemma digits2_pos_spec (m : positive) :
  2 ^ (Zpos (digits2_pos m) - 1) <= Zpos m < 2 ^ Zpos (digits2_pos m).
Proof.
  induction m as [m IH|m IH|]; cbn [digits2_pos].
  - rewrite Pos2Z.inj_succ.
    replace (Z.succ (Zpos (digits2_pos m)) - 1) with (Z.succ (Zpos (digits2_pos m) - 1)) by lia.
    rewrite !Z.pow_succ_r by lia. lia.
  - rewrite Pos2Z.inj_succ.
    replace (Z.succ (Zpos (digits2_pos m)) - 1) with (Z.succ (Zpos (digits2_pos m) - 1)) by lia.
    rewrite !Z.pow_succ_r by lia. lia.
  - cbn. lia.
Qed.

Lemma digits2_pos_unique (m : positive) (k : Z) :
  2 ^ (k - 1) <= Zpos m < 2 ^ k -> Zpos (digits2_pos m) = k.
Proof.
  intros [Hlo Hhi]. pose proof (digits2_pos_spec m) as [Dlo Dhi].
  assert (Hk : 0 < k).
  { destruct (Z_lt_le_dec 0 k) as [|Hk0]; [assumption|].
    exfalso. assert (2 ^ k <= 1).
    { destruct (Z.eq_dec k 0) as [->|]; [cbn; lia|].
      rewrite Z.pow_neg_r by lia. lia. }
    lia. }
  destruct (Z.lt_trichotomy (Zpos (digits2_pos m)) k) as [H|[H|H]]; [|exact H|].
  - exfalso. assert (2 ^ Zpos (digits2_pos m) <= 2 ^ (k - 1))
      by (apply Z.pow_le_mono_r; lia). lia.
  - exfalso. assert (2 ^ k <= 2 ^ (Zpos (digits2_pos m) - 1))
      by (apply Z.pow_le_mono_r; lia). lia.
Qed.

Definition fexp64 (e : Z) : Z := fexp prec emax e.

Lemma fexp64_eq e : fexp64 e = Z.max (e - 53) (-1074).
Proof. reflexivity. Qed.

Lemma bounded_inv m e :
  bounded prec emax m e = true ->
  -1074 <= e <= 971 /\ Zpos m < 2 ^ 53 /\ (-1074 < e -> 2 ^ 52 <= Zpos m)
  /\ fexp64 (Zpos (digits2_pos m) + e) = e.
Proof.
  unfold bounded, canonical_mantissa. intros H.
  apply andb_prop in H as [Hc He]. apply Z.eqb_eq in Hc. apply Z.leb_le in He.
  change (fexp prec emax) with fexp64 in Hc. rewrite fexp64_eq in Hc.
  change (emax - prec) with 971 in He.
  pose proof (digits2_pos_spec m) as [Dlo Dhi].
  assert (Hd : Zpos (digits2_pos m) <= 53) by lia.
  split; [lia|]. split; [|split].
  - assert (2 ^ Zpos (digits2_pos m) <= 2 ^ 53) by (apply Z.pow_le_mono_r; lia). lia.
  - intros Hn. assert (Zpos (digits2_pos m) = 53) as E by lia.
    rewrite E in Dlo. exact Dlo.
  - rewrite fexp64_eq. exact Hc.
Qed.

(** ** Comparison *)

(** A finite float in canonical form. *)
Definition SF_valid (x : spec_float) : Prop :=
  valid_binary x = true /\ SF_finite x = true.

Lemma canonical_exp_lt m1 e1 m2 e2 :
  bounded prec emax m1 e1 = true -> bounded prec emax m2 e2 = true ->
  e1 < e2 -> (F2R (Zpos m1) e1 < F2R (Zpos m2) e2)%R.
Proof.
  intros (He1 & Hm1 & _ & _)%bounded_inv (He2 & _ & Hm2 & _)%bounded_inv Hlt.
  specialize (Hm2 ltac:(lia)).
  apply Rlt_le_trans with (bpow (53 + e1)); [apply F2R_lt_bpow; lia|].
  apply Rle_trans with (bpow (52 + e2)); [apply bpow_le; lia|].
  apply F2R_ge_bpow; lia.
Qed.

Lemma SFcompare_finite_pos m1 e1 m2 e2 :
  bounded prec emax m1 e1 = true -> bounded prec emax m2 e2 = true ->
  match (match Z.compare e1 e2 with
         | Lt => Lt | Gt => Gt | Eq => Pos.compare_cont Eq m1 m2 end) with
  | Lt => (F2R (Zpos m1) e1 < F2R (Zpos m2) e2)%R
  | Eq => F2R (Zpos m1) e1 = F2R (Zpos m2) e2
  | Gt => (F2R (Zpos m2) e2 < F2R (Zpos m1) e1)%R
  end.
Proof.
  intros H1 H2. destruct (Z.compare_spec e1 e2) as [->|Hlt|Hgt].
  - change (Pos.compare_cont Eq m1 m2) with (Pos.compare m1 m2).
    destruct (Pos.compare_spec m1 m2) as [->|Hm|Hm].
    + reflexivity.
    + apply F2R_lt. lia.
    + apply F2R_lt. lia.
  - now apply canonical_exp_lt.
  - now apply canonical_exp_lt.
Qed.

Lemma SFcompare_spec x y :
  SF_valid x -> SF_valid y ->
  exists c, SFcompare x y = Some c
    /\ match c with
       | Lt => (SF2R x < SF2R y)%R
       | Eq => SF2R x = SF2R y
       | Gt => (SF2R y < SF2R x)%R
       end.
Proof.
  intros [Vx Fx] [Vy Fy].
  destruct x as [sx|sx| |sx mx ex]; try discriminate Fx;
  destruct y as [sy|sy| |sy my ey]; try discriminate Fy; cbn [SFcompare SF2R].
  - exists Eq. split; reflexivity.
  - pose proof (F2R_pos (Zpos my) ey ltac:(lia)).
    destruct sy; eexists; (split; [reflexivity|]); cbn [cond_Zopp];
      rewrite ?F2R_opp; lra.
  - pose proof (F2R_pos (Zpos mx) ex ltac:(lia)).
    destruct sx; eexists; (split; [reflexivity|]); cbn [cond_Zopp];
      rewrite ?F2R_opp; lra.
  - cbn [valid_binary] in Vx, Vy.
    pose proof (F2R_pos (Zpos mx) ex ltac:(lia)).
    pose proof (F2R_pos (Zpos my) ey ltac:(lia)).
    pose proof (SFcompare_finite_pos mx ex my ey Vx Vy) as Hc.
    destruct sx, sy; eexists; (split; [reflexivity|]); cbn [cond_Zopp];
      rewrite ?F2R_opp; try lra.
    + destruct (ex ?= ey); [destruct (Pos.compare_cont Eq mx my)| |];
        cbn [CompOpp]; lra.
    + destruct (ex ?= ey); [destruct (Pos.compare_cont Eq mx my)| |]; lra.
Qed.

Lemma SFleb_true x y :
  SF_valid x -> SF_valid y -> (SF2R x <= SF2R y)%R -> SFleb x y = true.
Proof.
  intros Hx Hy Hle. destruct (SFcompare_spec x y Hx Hy) as (c & Hc & Hv).
  unfold SFleb. rewrite Hc. destruct c; [reflexivity|reflexivity|lra].
Qed.

Lemma SFltb_true x y :
  SF_valid x -> SF_valid y -> (SF2R x < SF2R y)%R -> SFltb x y = true.
Proof.
  intros Hx Hy Hlt. destruct (SFcompare_spec x y Hx Hy) as (c & Hc & Hv).
  unfold SFltb. rewrite Hc. destruct c; [lra|reflexivity|lra].
Qed.

Lemma SFleb_le x y :
  SF_valid x -> SF_valid y -> SFleb x y = true -> (SF2R x <= SF2R y)%R.
Proof.
  intros Hx Hy H. destruct (SFcompare_spec x y Hx Hy) as (c & Hc & Hv).
  unfold SFleb in H. rewrite Hc in H. destruct c; [lra|lra|discriminate H].
Qed.

Lemma SFltb_lt x y :
  SF_valid x -> SF_valid y -> SFltb x y = true -> (SF2R x < SF2R y)%R.
Proof.
  intros Hx Hy H. destruct (SFcompare_spec x y Hx Hy) as (c & Hc & Hv).
  unfold SFltb in H. rewrite Hc in H. destruct c; [discriminate H|lra|discriminate H].
Qed.

(** ** Rounding never exceeds a representable bound *)

(** A shift record whose truncated value is below [v], strictly when one
    of its round and sticky bits is set. *)
Definition shr_below (v : R) (mrs : shr_record) (e : Z) : Prop :=
  0 <= shr_m mrs
  /\ (F2R (shr_m mrs) e <= v)%R
  /\ (orb (shr_r mrs) (shr_s mrs) = true -> (F2R (shr_m mrs) e < v)%R).

Lemma IZR_xO p : IZR (Zpos p~0) = (2 * IZR (Zpos p))%R.
Proof. rewrite Pos2Z.inj_xO, mult_IZR. reflexivity. Qed.

Lemma IZR_xI p : IZR (Zpos p~1) = (2 * IZR (Zpos p) + 1)%R.
Proof. rewrite Pos2Z.inj_xI, plus_IZR, mult_IZR. reflexivity. Qed.

Lemma shr_1_below v mrs e :
  shr_below v mrs e -> shr_below v (shr_1 mrs) (e + 1).
Proof.
  destruct mrs as [m r s]. unfold shr_below. cbn [shr_m shr_r shr_s].
  intros (Hm & Hle & Hlt). pose proof (bpow_gt_0 e) as Hb.
  destruct m as [|[p|p|]|p]; cbn [shr_1 shr_m shr_r shr_s]; try lia;
    unfold F2R in *; rewrite bpow_succ.
  - split; [lia|]. split; [lra|]. intros H. rewrite orb_false_l in H.
    specialize (Hlt H). lra.
  - rewrite (IZR_xI p) in *. split; [lia|]. split; [nra|]. intros _. nra.
  - rewrite (IZR_xO p) in *. split; [lia|]. split; [nra|]. intros H.
    rewrite orb_false_l in H. specialize (Hlt H). nra.
  - split; [lia|]. split; [lra|]. intros _. lra.
Qed.

Lemma iter_pos_shr_1_below v p :
  forall mrs e, shr_below v mrs e -> shr_below v (SpecFloat.iter_pos shr_1 p mrs) (e + Zpos p).
Proof.
  induction p as [p IH|p IH|]; intros mrs e H; cbn [SpecFloat.iter_pos].
  - replace (e + Zpos p~1) with (e + 1 + Zpos p + Zpos p) by lia.
    apply IH, IH, shr_1_below, H.
  - replace (e + Zpos p~0) with (e + Zpos p + Zpos p) by lia.
    apply IH, IH, H.
  - apply shr_1_below, H.
Qed.

Lemma shr_below_shr v mrs e n :
  shr_below v mrs e ->
  shr_below v (shr mrs e n).1 (shr mrs e n).2
  /\ (shr mrs e n).2 = (if 0 <? n then e + n else e).
Proof.
  intros H. destruct n as [|p|p]; cbn [shr fst snd]; try (split; [exact H|reflexivity]).
  split; [now apply iter_pos_shr_1_below|reflexivity].
Qed.

Lemma shr_record_of_loc_below v m l e :
  0 <= m -> (F2R m e <= v)%R -> (l <> loc_Exact -> (F2R m e < v)%R) ->
  shr_below v (shr_record_of_loc m l) e.
Proof.
  intros Hm Hle Hlt. unfold shr_below.
  destruct l as [|[| |]]; cbn [shr_record_of_loc shr_m shr_r shr_s orb];
    (split; [exact Hm|]); (split; [exact Hle|]); intros H;
    try discriminate H; apply Hlt; discriminate.
Qed.

Lemma round_nearest_even_cases mrs :
  round_nearest_even (shr_m mrs) (loc_of_shr_record mrs) = shr_m mrs
  \/ (round_nearest_even (shr_m mrs) (loc_of_shr_record mrs) = shr_m mrs + 1
      /\ shr_r mrs = true).
Proof.
  destruct mrs as [m [|] [|]]; cbn [loc_of_shr_record round_nearest_even shr_m shr_r];
    try (now left); try (now right).
  destruct (Z.even m); [now left | now right].
Qed.

Lemma Zdigits2_bpow (m e : Z) :
  0 < m -> (bpow (Zdigits2 m - 1 + e) <= F2R m e)%R.
Proof.
  intros Hm. destruct m as [|p|p]; try lia. cbn [Zdigits2].
  pose proof (digits2_pos_spec p) as [Hlo _].
  apply F2R_ge_bpow; [|exact Hlo]. pose proof (Pos2Z.is_pos (digits2_pos p)). lia.
Qed.

Lemma fexp64_mono a b : a <= b -> fexp64 a <= fexp64 b.
Proof. rewrite !fexp64_eq. lia. Qed.

Lemma bounded_lt_bpow m e :
  bounded prec emax m e = true ->
  (F2R (Zpos m) e < bpow (Zpos (digits2_pos m) + e))%R.
Proof.
  intros _. pose proof (digits2_pos_spec m) as [_ Hhi].
  apply F2R_lt_bpow; [|exact Hhi]. lia.
Qed.

Lemma bpow_lt_inv a b : (bpow a < bpow b)%R -> a < b.
Proof.
  intros H. destruct (Z_lt_ge_dec a b) as [|Hge]; [assumption|].
  exfalso. assert (bpow b <= bpow a)%R by (apply bpow_le; lia). lra.
Qed.

(** The result of rounding a positive quantity [v], given by its
    truncation [mx * 2^ex] and whether it is exact, when [v] is at most
    the value of a float [mb * 2^eb]: zero or a finite float of value at
    most that bound, never an infinity. *)
Definition SF_below (sx : bool) (r : spec_float) (B : R) : Prop :=
  r = S754_zero sx
  \/ exists m e, r = S754_finite sx m e /\ (F2R (Zpos m) e <= B)%R.

Lemma binary_round_aux_below sx mx ex lx v mb eb :
  0 < mx ->
  ex <= fexp64 (Zdigits2 mx + ex) ->
  (F2R mx ex <= v)%R -> (lx <> loc_Exact -> (F2R mx ex < v)%R) ->
  bounded prec emax mb eb = true ->
  (v <= F2R (Zpos mb) eb)%R ->
  SF_below sx (binary_round_aux prec emax sx mx ex lx) (F2R (Zpos mb) eb).
Proof.
  intros Hmx Hex Hle Hlt HB HvB.
  pose proof (bounded_inv mb eb HB) as (Heb & _ & _ & Hcan).
  pose proof (bounded_lt_bpow mb eb HB) as HBlt.
  (* the bound sits on the grid of the first exponent *)
  assert (HdE : Zdigits2 mx + ex <= Zpos (digits2_pos mb) + eb).
  { pose proof (Zdigits2_bpow mx ex Hmx) as Hd.
    assert (Hlt' : (bpow (Zdigits2 mx - 1 + ex) < bpow (Zpos (digits2_pos mb) + eb))%R)
      by lra.
    apply bpow_lt_inv in Hlt'. lia. }
  assert (HE1 : fexp64 (Zdigits2 mx + ex) <= eb)
    by (rewrite <- Hcan; apply fexp64_mono, HdE).
  assert (HE1min : -1074 <= fexp64 (Zdigits2 mx + ex)) by (rewrite fexp64_eq; lia).
  unfold binary_round_aux, shr_fexp. change (fexp prec emax) with fexp64.
  remember (fexp64 (Zdigits2 mx + ex)) as E1 eqn:HE1def. clear HE1def.
  (* first shift *)
  pose proof (shr_below_shr v (shr_record_of_loc mx lx) ex (E1 - ex)
                (shr_record_of_loc_below v mx lx ex ltac:(lia) Hle Hlt)) as [H1 He1].
  revert H1 He1.
  destruct (shr (shr_record_of_loc mx lx) ex (E1 - ex)) as [mrs1 e1].
  cbn [fst snd]. intros H1 He1.
  assert (He1' : e1 = E1).
  { revert He1. destruct (Z.ltb_spec 0 (E1 - ex)); intros; lia. }
  clear He1. subst e1. destruct H1 as (Hm1 & Hle1 & Hlt1).
  assert (HK : exists K, F2R (Zpos mb) eb = F2R K E1)
    by (eexists; apply F2R_change_exp, HE1).
  destruct HK as [K HK].
  (* rounding *)
  remember (round_nearest_even (shr_m mrs1) (loc_of_shr_record mrs1)) as M eqn:HMdef.
  assert (HM : 0 <= M /\ M <= K).
  { destruct (round_nearest_even_cases mrs1) as [E|[E Hr]];
      rewrite <- HMdef in E; rewrite E.
    - split; [lia|]. apply (F2R_le_inv _ _ E1). rewrite <- HK. lra.
    - split; [lia|]. assert (shr_m mrs1 < K); [|lia].
      apply (F2R_lt_inv _ _ E1). rewrite <- HK.
      specialize (Hlt1 ltac:(rewrite Hr; reflexivity)). lra. }
  clear HMdef. destruct HM as [HM0 HMK].
  assert (HMB : (F2R M E1 <= F2R (Zpos mb) eb)%R) by (rewrite HK; now apply F2R_le).
  (* second shift *)
  assert (Hfe2 : 0 < M -> fexp64 (Zdigits2 M + E1) <= eb).
  { intros HMpos.
    assert (HdM : Zdigits2 M + E1 <= Zpos (digits2_pos mb) + eb).
    { pose proof (Zdigits2_bpow M E1 HMpos) as Hd.
      assert (Hlt' : (bpow (Zdigits2 M - 1 + E1) < bpow (Zpos (digits2_pos mb) + eb))%R)
        by lra.
      apply bpow_lt_inv in Hlt'. lia. }
    pose proof (fexp64_mono _ _ HdM) as Hf. now rewrite Hcan in Hf. }
  assert (Hfe0 : M = 0 -> fexp64 (Zdigits2 M + E1) <= E1).
  { intros ->. cbn [Zdigits2]. rewrite fexp64_eq. lia. }
  remember (fexp64 (Zdigits2 M + E1)) as E2 eqn:HE2def. clear HE2def.
  pose proof (shr_below_shr (F2R M E1) (shr_record_of_loc M loc_Exact) E1 (E2 - E1)
                (shr_record_of_loc_below _ M loc_Exact E1 HM0 (Rle_refl _)
                   (fun H => False_ind _ (H eq_refl)))) as [H2 He2].
  revert H2 He2.
  destruct (shr (shr_record_of_loc M loc_Exact) E1 (E2 - E1)) as [mrs2 e2].
  cbn [fst snd]. intros H2 He2. destruct H2 as (Hm2 & Hle2 & _).
  destruct (shr_m mrs2) as [|m2|m2] eqn:Em2; [now left| |lia].
  right.
  assert (HMpos : 0 < M).
  { destruct (Z.eq_dec M 0) as [E0|]; [|lia]. exfalso.
    specialize (Hfe0 E0).
    assert (He2' : e2 = E1).
    { revert He2. destruct (Z.ltb_spec 0 (E2 - E1)); intros; lia. }
    rewrite E0, F2R_0 in Hle2. pose proof (F2R_pos (Zpos m2) e2 ltac:(lia)). lra. }
  specialize (Hfe2 HMpos).
  assert (He2le : e2 <= 971).
  { revert He2. destruct (Z.ltb_spec 0 (E2 - E1)); intros; lia. }
  change (emax - prec) with 971.
  destruct (Z.leb_spec e2 971) as [_|Hbad]; [|lia].
  exists m2, e2. split; [reflexivity|]. lra.
Qed.

(** ** Bounds through the four operations *)

(** Finite, of magnitude at most [B]. *)
Definition SF_within (x : spec_float) (B : R) : Prop :=
  match x with
  | S754_zero _ => True
  | S754_finite _ m e => (F2R (Zpos m) e <= B)%R
  | _ => False
  end.

(** A zero or a positive finite float, at most [B]. *)
Definition SF_range (x : spec_float) (B : R) : Prop :=
  match x with
  | S754_zero _ => True
  | S754_finite false m e => (F2R (Zpos m) e <= B)%R
  | _ => False
  end.

Lemma SF_range_within x B : SF_range x B -> SF_within x B.
Proof. destruct x as [s|s| |[|] m e]; cbn; tauto. Qed.

Lemma SF_below_within sx r B : SF_below sx r B -> SF_within r B.
Proof. intros [->|(m & e & -> & H)]; cbn; [exact I|exact H]. Qed.

Lemma SF_below_range r B : SF_below false r B -> SF_range r B.
Proof. intros [->|(m & e & -> & H)]; cbn; [exact I|exact H]. Qed.

Lemma SF_range_weaken x B B' : (B <= B')%R -> SF_range x B -> SF_range x B'.
Proof. intros HB. destruct x as [s|s| |[|] m e]; cbn; try tauto. lra. Qed.

Lemma F2R_add m1 m2 e : (F2R (m1 + m2) e = F2R m1 e + F2R m2 e)%R.
Proof. unfold F2R. rewrite plus_IZR. ring. Qed.

Lemma iter_xO_Zpos m d : Zpos (Pos.iter xO m d) = Zpos m * 2 ^ Zpos d.
Proof.
  induction d as [|d IH] using Pos.peano_ind.
  - cbn. lia.
  - rewrite Pos.iter_succ, Pos2Z.inj_xO, IH, Pos2Z.inj_succ, Z.pow_succ_r by lia. ring.
Qed.

Lemma shl_align_spec mx ex ex' :
  (shl_align mx ex ex').2 = Z.min ex ex'
  /\ Zpos (shl_align mx ex ex').1 = Zpos mx * 2 ^ (ex - Z.min ex ex').
Proof.
  unfold shl_align. destruct (ex' - ex) as [|d|d] eqn:E; cbn [fst snd].
  - split; [lia|]. replace (ex - Z.min ex ex') with 0 by lia. lia.
  - split; [lia|]. replace (ex - Z.min ex ex') with 0 by lia. lia.
  - split; [lia|]. replace (ex - Z.min ex ex') with (Zpos d) by lia.
    apply iter_xO_Zpos.
Qed.

Lemma shl_align_value mx ex ex' :
  F2R (Zpos (shl_align mx ex ex').1) (Z.min ex ex') = F2R (Zpos mx) ex.
Proof.
  destruct (shl_align_spec mx ex ex') as [_ ->]. symmetry.
  apply F2R_change_exp. lia.
Qed.

Lemma digits2_pos_shift m k mz :
  0 <= k -> Zpos mz = Zpos m * 2 ^ k ->
  Zpos (digits2_pos mz) = Zpos (digits2_pos m) + k.
Proof.
  intros Hk E. apply digits2_pos_unique. rewrite E.
  pose proof (digits2_pos_spec m) as [Hlo Hhi].
  pose proof (Pos2Z.is_pos (digits2_pos m)) as Hd.
  pose proof (Z.pow_pos_nonneg 2 k ltac:(lia) Hk) as Hp.
  replace (Zpos (digits2_pos m) + k - 1) with (Zpos (digits2_pos m) - 1 + k) by lia.
  rewrite !Z.pow_add_r by lia. split.
  - apply Z.mul_le_mono_nonneg_r; lia.
  - apply Z.mul_lt_mono_pos_r; lia.
Qed.

Lemma binary_round_below sx mx ex mb eb :
  bounded prec emax mb eb = true ->
  (F2R (Zpos mx) ex <= F2R (Zpos mb) eb)%R ->
  SF_below sx (binary_round prec emax sx mx ex) (F2R (Zpos mb) eb).
Proof.
  intros HB Hle. unfold binary_round. change (fexp prec emax) with fexp64.
  pose proof (shl_align_spec mx ex (fexp64 (Zpos (digits2_pos mx) + ex))) as [Hez Hmz].
  pose proof (shl_align_value mx ex (fexp64 (Zpos (digits2_pos mx) + ex))) as Hv.
  revert Hez Hmz Hv.
  destruct (shl_align mx ex (fexp64 (Zpos (digits2_pos mx) + ex))) as [mz ez].
  cbn [fst snd]. intros Hez Hmz Hv.
  apply binary_round_aux_below with (v := F2R (Zpos mx) ex).
  - lia.
  - cbn [Zdigits2].
    rewrite (digits2_pos_shift mx (ex - ez) mz) by (rewrite ?Hez; lia).
    replace (Zpos (digits2_pos mx) + (ex - ez) + ez)
      with (Zpos (digits2_pos mx) + ex) by lia. lia.
  - rewrite Hez, Hv. apply Rle_refl.
  - intros H. exfalso. now apply H.
  - exact HB.
  - exact Hle.
Qed.

Lemma digits2_pos_mul mx my :
  Zpos (digits2_pos mx) + Zpos (digits2_pos my) - 1 <= Zpos (digits2_pos (mx * my)).
Proof.
  pose proof (digits2_pos_spec mx) as [Hx _].
  pose proof (digits2_pos_spec my) as [Hy _].
  pose proof (digits2_pos_spec (mx * my)) as [_ Hxy].
  pose proof (Pos2Z.is_pos (digits2_pos mx)). pose proof (Pos2Z.is_pos (digits2_pos my)).
  pose proof (Pos2Z.is_pos (digits2_pos (mx * my))).
  assert (Hlo : 2 ^ (Zpos (digits2_pos mx) - 1 + (Zpos (digits2_pos my) - 1))
                <= Zpos (mx * my)).
  { rewrite Z.pow_add_r, Pos2Z.inj_mul by lia.
    apply Z.mul_le_mono_nonneg; try lia; apply Z.pow_nonneg; lia. }
  assert (Hlt : 2 ^ (Zpos (digits2_pos mx) - 1 + (Zpos (digits2_pos my) - 1))
                < 2 ^ Zpos (digits2_pos (mx * my))) by lia.
  apply Z.pow_lt_mono_r_iff in Hlt; lia.
Qed.

Lemma mul_exponent_aligned mx ex my ey :
  bounded prec emax mx ex = true -> bounded prec emax my ey = true ->
  ex + ey <= fexp64 (Zdigits2 (Zpos (mx * my)) + (ex + ey)).
Proof.
  intros (Hex & _ & _ & Hcx)%bounded_inv (Hey & _ & _ & Hcy)%bounded_inv.
  pose proof (digits2_pos_mul mx my) as Hd.
  pose proof (Pos2Z.is_pos (digits2_pos mx)). pose proof (Pos2Z.is_pos (digits2_pos my)).
  cbn [Zdigits2]. rewrite fexp64_eq in *. lia.
Qed.

Lemma SFmul_finite_below sx mx ex sy my ey Bx By mb eb :
  bounded prec emax mx ex = true -> bounded prec emax my ey = true ->
  (F2R (Zpos mx) ex <= Bx)%R -> (F2R (Zpos my) ey <= By)%R ->
  bounded prec emax mb eb = true -> (Bx * By <= F2R (Zpos mb) eb)%R ->
  SF_below (xorb sx sy)
    (SFmul prec emax (S754_finite sx mx ex) (S754_finite sy my ey))
    (F2R (Zpos mb) eb).
Proof.
  intros Hbx Hby Hx Hy HB HBB. cbn [SFmul].
  apply binary_round_aux_below with (v := F2R (Zpos (mx * my)) (ex + ey)).
  - lia.
  - now apply mul_exponent_aligned.
  - apply Rle_refl.
  - intros H. exfalso. now apply H.
  - exact HB.
  - rewrite Pos2Z.inj_mul, F2R_mul.
    pose proof (F2R_pos (Zpos mx) ex ltac:(lia)).
    pose proof (F2R_pos (Zpos my) ey ltac:(lia)).
    apply Rle_trans with (Bx * By)%R; [|exact HBB].
    apply Rmult_le_compat; lra.
Qed.

(** The product of two floats that are zero or positive. *)
Lemma SFmul_range x y Bx By mb eb :
  valid_binary x = true -> valid_binary y = true ->
  SF_range x Bx -> SF_range y By ->
  bounded prec emax mb eb = true -> (Bx * By <= F2R (Zpos mb) eb)%R ->
  SF_range (SFmul prec emax x y) (F2R (Zpos mb) eb).
Proof.
  intros Hvx Hvy Hx Hy HB HBB.
  destruct x as [sx|sx| |[|] mx ex]; try contradiction;
    destruct y as [sy|sy| |[|] my ey]; try contradiction; try exact I.
  apply SF_below_range.
  exact (SFmul_finite_below false mx ex false my ey Bx By mb eb Hvx Hvy Hx Hy HB HBB).
Qed.

(** The square of a finite float is zero or positive. *)
Lemma SFmul_square x Bx mb eb :
  valid_binary x = true -> SF_within x Bx ->
  bounded prec emax mb eb = true -> (Bx * Bx <= F2R (Zpos mb) eb)%R ->
  SF_range (SFmul prec emax x x) (F2R (Zpos mb) eb).
Proof.
  intros Hvx Hx HB HBB.
  destruct x as [sx|sx| |sx mx ex]; try contradiction; try exact I.
  apply SF_below_range. replace false with (xorb sx sx) by now destruct sx.
  exact (SFmul_finite_below sx mx ex sx mx ex Bx Bx mb eb Hvx Hvx Hx Hx HB HBB).
Qed.

Lemma binary_normalize_within m e mb eb :
  bounded prec emax mb eb = true ->
  (F2R (Z.abs m) e <= F2R (Zpos mb) eb)%R ->
  SF_within (binary_normalize prec emax m e false) (F2R (Zpos mb) eb).
Proof.
  intros HB Hle. destruct m as [|m|m]; cbn [binary_normalize]; [exact I| |];
    eapply SF_below_within, binary_round_below; eauto.
Qed.

Lemma binary_normalize_range m e mb eb :
  bounded prec emax mb eb = true -> 0 <= m ->
  (F2R m e <= F2R (Zpos mb) eb)%R ->
  SF_range (binary_normalize prec emax m e false) (F2R (Zpos mb) eb).
Proof.
  intros HB Hm Hle. destruct m as [|m|m]; cbn [binary_normalize]; [exact I| |lia].
  eapply SF_below_range, binary_round_below; eauto.
Qed.

(** The difference of two floats of [0, B]. *)
Lemma SFsub_within x y mb eb :
  bounded prec emax mb eb = true ->
  SF_range x (F2R (Zpos mb) eb) -> SF_range y (F2R (Zpos mb) eb) ->
  SF_within (SFsub prec emax x y) (F2R (Zpos mb) eb).
Proof.
  intros HB Hx Hy.
  destruct x as [sx|sx| |[|] mx ex]; try contradiction;
    destruct y as [sy|sy| |[|] my ey]; try contradiction.
  - destruct sx, sy; exact I.
  - exact Hy.
  - exact Hx.
  - cbn [SFsub cond_Zopp]. apply binary_normalize_within; [exact HB|].
    pose proof (shl_align_value mx ex (Z.min ex ey)) as Hvx.
    pose proof (shl_align_value my ey (Z.min ex ey)) as Hvy.
    replace (Z.min ex (Z.min ex ey)) with (Z.min ex ey) in Hvx by lia.
    replace (Z.min ey (Z.min ex ey)) with (Z.min ex ey) in Hvy by lia.
    cbn [SF_range] in Hx, Hy.
    set (ax := Zpos (shl_align mx ex (Z.min ex ey)).1) in *.
    set (ay := Zpos (shl_align my ey (Z.min ex ey)).1) in *.
    assert (Hax : 0 < ax) by (unfold ax; lia).
    assert (Hay : 0 < ay) by (unfold ay; lia).
    clearbody ax ay.
    destruct (Z.le_ge_cases ax ay) as [Hc|Hc].
    + apply Rle_trans with (F2R ay (Z.min ex ey)); [apply F2R_le; lia|]. lra.
    + apply Rle_trans with (F2R ax (Z.min ex ey)); [apply F2R_le; lia|]. lra.
Qed.

(** The sum of two floats that are zero or positive. *)
Lemma SFadd_range x y Bx By mb eb :
  bounded prec emax mb eb = true ->
  SF_range x Bx -> SF_range y By ->
  (Bx <= F2R (Zpos mb) eb)%R -> (By <= F2R (Zpos mb) eb)%R ->
  (Bx + By <= F2R (Zpos mb) eb)%R ->
  SF_range (SFadd prec emax x y) (F2R (Zpos mb) eb).
Proof.
  intros HB Hx Hy HBx HBy HBB.
  destruct x as [sx|sx| |[|] mx ex]; try contradiction;
    destruct y as [sy|sy| |[|] my ey]; try contradiction.
  - destruct sx, sy; exact I.
  - cbn [SFadd SF_range] in *. lra.
  - cbn [SFadd SF_range] in *. lra.
  - cbn [SFadd cond_Zopp].
    pose proof (shl_align_value mx ex (Z.min ex ey)) as Hvx.
    pose proof (shl_align_value my ey (Z.min ex ey)) as Hvy.
    replace (Z.min ex (Z.min ex ey)) with (Z.min ex ey) in Hvx by lia.
    replace (Z.min ey (Z.min ex ey)) with (Z.min ex ey) in Hvy by lia.
    cbn [SF_range] in Hx, Hy.
    apply binary_normalize_range; [exact HB|lia|].
    rewrite F2R_add. lra.
Qed.

Lemma sqrtrem_facts n :
  0 < n ->
  0 < (Z.sqrtrem n).1 /\ 0 <= (Z.sqrtrem n).2
  /\ n = (Z.sqrtrem n).1 * (Z.sqrtrem n).1 + (Z.sqrtrem n).2
  /\ n < ((Z.sqrtrem n).1 + 1) * ((Z.sqrtrem n).1 + 1).
Proof.
  intros Hn. pose proof (Z.sqrtrem_spec n ltac:(lia)) as H.
  destruct (Z.sqrtrem n) as [q r]. cbn [fst snd]. destruct H as [E [Hr0 Hr]].
  assert (0 < q) by nia. repeat split; [assumption|lia|assumption|nia].
Qed.

Lemma sqrt_core_facts m e :
  let '(q, e', l) := SFsqrt_core_binary prec emax (Zpos m) e in
  0 < q
  /\ e' <= fexp64 (Zdigits2 q + e')
  /\ exists r, 0 <= r /\ F2R (q * q + r) (2 * e') = F2R (Zpos m) e
               /\ (l = loc_Exact -> r = 0) /\ (l <> loc_Exact -> 0 < r).
Proof.
  unfold SFsqrt_core_binary. change (fexp prec emax) with fexp64.
  cbn [Zdigits2].
  pose proof (digits2_pos_spec m) as [Hmlo _].
  remember (Zpos (digits2_pos m)) as d eqn:Hd.
  assert (Hdpos : 0 < d) by lia. clear Hd.
  assert (Hdiv : 2 * Z.div2 e <= e) by (rewrite Z.div2_div; apply Z.mul_div_le; lia).
  remember (Z.min (fexp64 (Z.div2 (d + e + 1))) (Z.div2 e)) as e' eqn:He'.
  assert (He'1 : e' <= fexp64 (Z.div2 (d + e + 1))) by lia.
  assert (He'2 : 2 * e' <= e) by lia. clear He' Hdiv.
  remember (e - 2 * e') as s eqn:Hs.
  assert (Hs0 : 0 <= s) by lia.
  remember (match s with 0 => Zpos m | Zpos _ => Z.shiftl (Zpos m) s | Zneg _ => 0 end)
    as m' eqn:Hm'def.
  assert (Hm' : m' = Zpos m * 2 ^ s).
  { rewrite Hm'def. destruct s as [|s'|s'] eqn:Es; [lia| |lia].
    apply Z.shiftl_mul_pow2. lia. }
  clear Hm'def.
  assert (Hm'pos : 0 < m').
  { rewrite Hm'. apply Z.mul_pos_pos; [lia|]. apply Z.pow_pos_nonneg; lia. }
  pose proof (sqrtrem_facts m' Hm'pos) as (Hq & Hr & Hqr & Hlt).
  destruct (Z.sqrtrem m') as [q r]. cbn [fst snd] in *.
  split; [exact Hq|]. split.
  - (* the digits of the root *)
    destruct q as [|q|q]; try lia. cbn [Zdigits2].
    pose proof (digits2_pos_spec q) as [_ Hqhi].
    pose proof (Pos2Z.is_pos (digits2_pos q)) as Hdq.
    remember (Zpos (digits2_pos q)) as dq eqn:Hdqdef. clear Hdqdef.
    assert (H1 : 2 ^ (d - 1 + s) <= m').
    { rewrite Hm', Z.pow_add_r by lia.
      apply Z.mul_le_mono_nonneg_r; [apply Z.pow_nonneg; lia|exact Hmlo]. }
    assert (H2 : (Zpos q + 1) * (Zpos q + 1) <= 2 ^ (dq + dq)).
    { rewrite Z.pow_add_r by lia. apply Z.mul_le_mono_nonneg; lia. }
    assert (H3 : 2 ^ (d - 1 + s) < 2 ^ (dq + dq)) by lia.
    apply Z.pow_lt_mono_r_iff in H3; [|lia|lia].
    apply Z.le_trans with (fexp64 (Z.div2 (d + e + 1))); [exact He'1|].
    apply fexp64_mono. rewrite Z.div2_div.
    assert ((d + e + 1) / 2 < dq + e' + 1) by (apply Z.div_lt_upper_bound; lia).
    lia.
  - exists r. split; [exact Hr|]. split.
    + rewrite <- Hqr, Hm', Hs. symmetry. apply F2R_change_exp. exact He'2.
    + split.
      * destruct (Z.eqb_spec r 0); [tauto|discriminate].
      * destruct (Z.eqb_spec r 0) as [E|E]; [intros H; now elim H|lia].
Qed.

Lemma F2R_square q e : (F2R (q * q) (2 * e) = F2R q e * F2R q e)%R.
Proof. replace (2 * e) with (e + e) by lia. apply F2R_mul. Qed.

(** The square root of a float that is zero or positive. *)
Lemma SFsqrt_range x Bx mb eb :
  SF_range x Bx ->
  bounded prec emax mb eb = true ->
  (Bx <= F2R (Zpos mb) eb * F2R (Zpos mb) eb)%R ->
  SF_range (SFsqrt prec emax x) (F2R (Zpos mb) eb).
Proof.
  intros Hx HB HBB.
  destruct x as [sx|sx| |[|] mx ex]; try contradiction; [exact I|].
  cbn [SFsqrt SF_range] in *.
  pose proof (sqrt_core_facts mx ex) as Hcore.
  destruct (SFsqrt_core_binary prec emax (Zpos mx) ex) as [[q e'] l].
  destruct Hcore as (Hq & Hal & r & Hr & Hval & Hex & Hinex).
  pose proof (F2R_pos (Zpos mb) eb ltac:(lia)) as HBpos.
  pose proof (F2R_pos q e' Hq) as Hqpos.
  assert (Hsq : (F2R q e' * F2R q e' <= F2R (Zpos mx) ex)%R).
  { rewrite <- Hval, <- F2R_square. apply F2R_le. lia. }
  apply SF_below_range.
  apply binary_round_aux_below with (v := R_sqrt.sqrt (F2R (Zpos mx) ex)).
  - exact Hq.
  - exact Hal.
  - rewrite <- (sqrt_square (F2R q e')) at 1 by lra. now apply sqrt_le_1_alt.
  - intros Hl. specialize (Hinex Hl).
    rewrite <- (sqrt_square (F2R q e')) at 1 by lra.
    apply sqrt_lt_1_alt. split; [nra|].
    rewrite <- Hval, <- F2R_square. apply F2R_lt. lia.
  - exact HB.
  - rewrite <- (sqrt_square (F2R (Zpos mb) eb)) by lra.
    apply sqrt_le_1_alt. lra.
Qed.

(** ** Primitive floats *)

Definition float_range (x : float) (B : R) : Prop := SF_range (Prim2SF x) B.
Definition float_within (x : float) (B : R) : Prop := SF_within (Prim2SF x) B.

(** [c] is the positive integer [n], exactly. *)
Definition float_is_int (c : float) (n : Z) : bool :=
  match Prim2SF c with
  | S754_finite false m e => (e <=? 0) && (Zpos m =? n * 2 ^ (- e))
  | _ => false
  end.

Lemma F2R_int m e n : e <= 0 -> m = n * 2 ^ (- e) -> F2R m e = IZR n.
Proof.
  intros He ->. replace (- e) with (0 - e) by lia.
  rewrite <- (F2R_change_exp n 0 e He). unfold F2R, bpow.
  cbn [powerRZ]. ring.
Qed.

Lemma float_is_int_spec c n :
  float_is_int c n = true ->
  exists m e, Prim2SF c = S754_finite false m e
              /\ bounded prec emax m e = true /\ F2R (Zpos m) e = IZR n.
Proof.
  unfold float_is_int. pose proof (Prim2SF_valid c) as Hv.
  destruct (Prim2SF c) as [s|s| |[|] m e]; try discriminate.
  intros [He Hm]%andb_true_iff. exists m, e. split; [reflexivity|].
  split; [exact Hv|]. apply F2R_int; lia.
Qed.

Lemma float_range_valid x B : float_range x B -> SF_valid (Prim2SF x).
Proof.
  unfold float_range. pose proof (Prim2SF_valid x) as Hv. split; [exact Hv|].
  destruct (Prim2SF x) as [s|s| |[|] m e]; try contradiction; reflexivity.
Qed.

Lemma float_range_SF2R x B : float_range x B -> (0 <= B -> SF2R (Prim2SF x) <= B)%R.
Proof.
  unfold float_range. destruct (Prim2SF x) as [s|s| |[|] m e]; try contradiction;
    cbn [SF_range SF2R cond_Zopp]; intros; lra.
Qed.

Lemma float_range_nonneg x B : float_range x B -> (0 <=? x)%float = true.
Proof.
  unfold float_range. rewrite leb_spec. change (Prim2SF 0) with (S754_zero false).
  destruct (Prim2SF x) as [s|s| |[|] m e]; try contradiction; reflexivity.
Qed.

Lemma float_range_leb x c n :
  float_is_int c n = true -> float_range x (IZR n) -> (x <=? c)%float = true.
Proof.
  intros (m & e & Hc & Hb & Hv)%float_is_int_spec Hx. rewrite leb_spec.
  pose proof (F2R_pos (Zpos m) e ltac:(lia)) as Hpos.
  apply SFleb_true.
  - exact (float_range_valid x _ Hx).
  - rewrite Hc. split; [exact Hb|reflexivity].
  - rewrite Hc. cbn [SF2R cond_Zopp]. rewrite Hv.
    apply float_range_SF2R; [exact Hx|lra].
Qed.

Lemma float_range_ltb x c n B :
  float_is_int c n = true -> float_range x B -> (0 <= B < IZR n)%R ->
  (x <? c)%float = true.
Proof.
  intros (m & e & Hc & Hb & Hv)%float_is_int_spec Hx HB. rewrite ltb_spec.
  apply SFltb_true.
  - exact (float_range_valid x _ Hx).
  - rewrite Hc. split; [exact Hb|reflexivity].
  - rewrite Hc. cbn [SF2R cond_Zopp]. rewrite Hv.
    pose proof (float_range_SF2R x B Hx). lra.
Qed.

Lemma square_range x Bx c n :
  float_is_int c n = true ->
  float_within x Bx -> (Bx * Bx <= IZR n)%R ->
  float_range (x * x) (IZR n).
Proof.
  intros (m & e & Hc & Hb & Hv)%float_is_int_spec Hx HB.
  unfold float_range. rewrite mul_spec, <- Hv.
  apply (SFmul_square _ Bx); try apply Prim2SF_valid; try assumption.
  now rewrite Hv.
Qed.

Lemma sub_within x y c n :
  float_is_int c n = true ->
  float_range x (IZR n) -> float_range y (IZR n) ->
  float_within (x - y) (IZR n).
Proof.
  intros (m & e & Hc & Hb & Hv)%float_is_int_spec Hx Hy.
  unfold float_within, float_range in *. rewrite sub_spec. rewrite <- Hv in *.
  now apply SFsub_within.
Qed.

Lemma add_range x y Bx By c n :
  float_is_int c n = true ->
  float_range x Bx -> float_range y By ->
  (0 <= Bx)%R -> (0 <= By)%R -> (Bx + By <= IZR n)%R ->
  float_range (x + y) (IZR n).
Proof.
  intros (m & e & Hc & Hb & Hv)%float_is_int_spec Hx Hy HBx HBy HB.
  unfold float_range in *. rewrite add_spec, <- Hv.
  apply (SFadd_range _ _ Bx By); try assumption; rewrite Hv; lra.
Qed.

Lemma sqrt_range x Bx c n :
  float_is_int c n = true ->
  float_range x Bx -> (Bx <= IZR n * IZR n)%R ->
  float_range (PrimFloat.sqrt x) (IZR n).
Proof.
  intros (m & e & Hc & Hb & Hv)%float_is_int_spec Hx HB.
  unfold float_range in *. rewrite sqrt_spec, <- Hv.
  apply (SFsqrt_range _ Bx); try assumption. now rewrite Hv.
Qed.

(** *** Draws *)

(** The largest float below 1. *)
Definition below_one : float := SF2Prim (S754_finite false (2 ^ 53 - 1) (-53)).

Lemma Prim2SF_one : Prim2SF 1 = S754_finite false (2 ^ 52) (-52).
Proof. reflexivity. Qed.

(** A draw, a float of [0, 1), is the largest float below 1 or is at
    most 1 - 2^-52. *)
Lemma unit_draw_range (d : float) :
  (0 <=? d)%float = true -> (d <? 1)%float = true ->
  float_range d 1
  /\ (d = below_one \/ float_range d (F2R (2 ^ 53 - 2) (-53))).
Proof.
  rewrite leb_spec, ltb_spec. change (Prim2SF 0) with (S754_zero false).
  rewrite Prim2SF_one. unfold float_range.
  pose proof (Prim2SF_valid d) as Hv. pose proof (SF2Prim_Prim2SF d) as Hd.
  destruct (Prim2SF d) as [s|s| |[|] m e]; try discriminate.
  - intros _ _. split; [exact I|right; exact I].
  - destruct s; discriminate.
  - intros _ Hlt. cbn [valid_binary] in Hv.
    apply SFltb_lt in Hlt; [|split; [exact Hv|reflexivity]|split; reflexivity].
    cbn [SF2R cond_Zopp] in Hlt.
    assert (H1 : F2R (Zpos (2 ^ 52)) (-52) = IZR 1)
      by (apply F2R_int; [lia|reflexivity]).
    rewrite H1 in Hlt.
    cbn [SF_range]. split; [lra|].
    pose proof (bounded_inv m e Hv) as (He & Hm & Hnorm & _).
    destruct (Z_lt_le_dec (-53) e) as [Hbig|Hsmall].
    + exfalso. specialize (Hnorm ltac:(lia)).
      pose proof (F2R_ge_bpow (Zpos m) 52 e ltac:(lia) Hnorm) as Hge.
      pose proof (bpow_le 0 (52 + e) ltac:(lia)) as Hb. unfold bpow at 1 in Hb.
      cbn [powerRZ] in Hb. lra.
    + destruct (Z.eq_dec e (-53)) as [->|Hne].
      * destruct (Z.eq_dec (Zpos m) (2 ^ 53 - 1)) as [E|E].
        -- left. rewrite <- Hd. unfold below_one. do 2 f_equal.
           apply Pos2Z.inj. exact E.
        -- right. apply F2R_le. lia.
      * right.
        pose proof (F2R_lt_bpow (Zpos m) 53 e ltac:(lia) Hm) as Hlt'.
        pose proof (bpow_le (53 + e) (52 + -53) ltac:(lia)) as Hb.
        pose proof (F2R_ge_bpow (2 ^ 53 - 2) 52 (-53) ltac:(lia) ltac:(lia)) as Hge.
        lra.
Qed.

(** Comparing two values [m * 2^e] by integer arithmetic. *)
Definition F2R_leb (m1 e1 m2 e2 : Z) : bool :=
  m1 * 2 ^ (e1 - Z.min e1 e2) <=? m2 * 2 ^ (e2 - Z.min e1 e2).

Definition F2R_ltb (m1 e1 m2 e2 : Z) : bool :=
  m1 * 2 ^ (e1 - Z.min e1 e2) <? m2 * 2 ^ (e2 - Z.min e1 e2).

Lemma F2R_leb_le m1 e1 m2 e2 :
  F2R_leb m1 e1 m2 e2 = true -> (F2R m1 e1 <= F2R m2 e2)%R.
Proof.
  unfold F2R_leb. intros H%Z.leb_le.
  rewrite (F2R_change_exp m1 e1 (Z.min e1 e2)), (F2R_change_exp m2 e2 (Z.min e1 e2))
    by lia.
  now apply F2R_le.
Qed.

Lemma F2R_ltb_lt m1 e1 m2 e2 :
  F2R_ltb m1 e1 m2 e2 = true -> (F2R m1 e1 < F2R m2 e2)%R.
Proof.
  unfold F2R_ltb. intros H%Z.ltb_lt.
  rewrite (F2R_change_exp m1 e1 (Z.min e1 e2)), (F2R_change_exp m2 e2 (Z.min e1 e2))
    by lia.
  now apply F2R_lt.
Qed.

Lemma F2R_IZR n : F2R n 0 = IZR n.
Proof. unfold F2R, bpow. cbn [powerRZ]. ring. Qed.

(** What has to be checked of an integer constant [c = n] for a draw
    scaled by it to stay strictly below it: with [p] the float before
    [c], [(1 - 2^-52) * n <= p < n], and the largest draw scaled is at
    most [p]. *)
Definition scales_strictly (c : float) (n : Z) : bool :=
  float_is_int c n
  && match Prim2SF (next_down c), Prim2SF (below_one * c) with
     | S754_finite false mb eb, S754_finite false mt et =>
         F2R_leb ((2 ^ 53 - 2) * n) (-53) (Zpos mb) eb
         && F2R_ltb (Zpos mb) eb n 0
         && F2R_leb (Zpos mt) et (Zpos mb) eb
     | _, _ => false
     end.

Lemma scale_draw_strictly (d c : float) (n : Z) :
  scales_strictly c n = true ->
  (0 <=? d)%float = true -> (d <? 1)%float = true ->
  exists B, float_range (d * c) B /\ (0 <= B < IZR n)%R.
Proof.
  unfold scales_strictly. intros [Hint Hchk]%andb_true_iff Hd0 Hd1.
  destruct (float_is_int_spec c n Hint) as (m & e & Hc & Hb & Hv).
  pose proof (Prim2SF_valid (next_down c)) as Hvb.
  destruct (Prim2SF (next_down c)) as [s|s| |[|] mb eb]; try discriminate.
  cbn [valid_binary] in Hvb.
  destruct (Prim2SF (below_one * c)) as [s|s| |[|] mt et] eqn:Etop; try discriminate.
  apply andb_true_iff in Hchk as [[H1 H2]%andb_true_iff H3].
  apply F2R_leb_le in H1, H3. apply F2R_ltb_lt in H2. rewrite F2R_IZR in H2.
  pose proof (F2R_pos (Zpos mb) eb ltac:(lia)) as HBpos.
  exists (F2R (Zpos mb) eb). split; [|lra].
  destruct (unit_draw_range d Hd0 Hd1) as [_ [->|Hr]].
  - unfold float_range. rewrite Etop. exact H3.
  - unfold float_range in *. rewrite mul_spec.
    apply (SFmul_range _ _ (F2R (2 ^ 53 - 2) (-53)) (F2R (Zpos m) e));
      try apply Prim2SF_valid; try assumption.
    + rewrite Hc. cbn [SF_range]. apply Rle_refl.
    + rewrite Hv, <- F2R_IZR, <- F2R_mul. exact H1.
Qed.

(** Scaling a draw by a finite capacity that is not negative. *)
Lemma scale_draw_capacity (d cap : float) :
  (0 <=? d)%float = true -> (d <? 1)%float = true ->
  (0 <=? cap)%float = true -> (cap <? infinity)%float = true ->
  (0 <=? d * cap)%float = true /\ (d * cap <=? cap)%float = true.
Proof.
  intros Hd0 Hd1 Hc0 Hc1.
  destruct (unit_draw_range d Hd0 Hd1) as [Hd _].
  pose proof (Prim2SF_valid d) as Hvd. pose proof (Prim2SF_valid cap) as Hvc.
  revert Hc0 Hc1. rewrite !leb_spec, ltb_spec, mul_spec.
  change (Prim2SF 0) with (S754_zero false).
  change (Prim2SF infinity) with (S754_infinity false).
  unfold float_range in Hd.
  destruct (Prim2SF cap) as [sc|sc| |[|] mc ec]; try discriminate;
    try (destruct sc; discriminate).
  - intros _ _.
    destruct (Prim2SF d) as [sd|sd| |[|] md ed]; try contradiction;
      destruct sc; split; reflexivity.
  - intros _ _.
    destruct (Prim2SF d) as [sd|sd| |[|] md ed]; try contradiction.
    + destruct sd; split; reflexivity.
    + cbn [valid_binary SF_range] in *.
      pose proof (SFmul_finite_below false md ed false mc ec 1 (F2R (Zpos mc) ec)
                    mc ec Hvd Hvc Hd (Rle_refl _) Hvc ltac:(lra)) as Hbelow.
      cbn [xorb] in Hbelow.
      pose proof (SF_below_range _ _ Hbelow) as Hr.
      assert (Hvm : valid_binary (SFmul prec emax (S754_finite false md ed)
                                   (S754_finite false mc ec)) = true).
      { rewrite <- (Prim2SF_valid (SF2Prim (S754_finite false md ed)
                                   * SF2Prim (S754_finite false mc ec))).
        rewrite mul_spec, !Prim2SF_SF2Prim by assumption. reflexivity. }
      unfold SF64mul. revert Hr Hvm.
      generalize (SFmul prec emax (S754_finite false md ed) (S754_finite false mc ec)).
      intros r Hr Hvm. split.
      * destruct r as [s|s| |[|] mr er]; try contradiction; reflexivity.
      * apply SFleb_true.
        -- split; [exact Hvm|].
           destruct r as [s|s| |[|] mr er]; try contradiction; reflexivity.
        -- split; [exact Hvc|reflexivity].
        -- pose proof (F2R_pos (Zpos mc) ec ltac:(lia)).
           destruct r as [s|s| |[|] mr er]; try contradiction;
             cbn [SF2R cond_Zopp SF_range] in *; lra.
Qed.

(** [Math.floor] of a float of [0, n). *)
Lemma float_floor_range (x : float) (B : R) (n : Z) :
  float_range x B -> (B < IZR n)%R -> 0 < n -> 0 <= float_floor x < n.
Proof.
  unfold float_range, float_floor. intros Hx HB Hn.
  destruct (Prim2SF x) as [s|s| |[|] m e]; try contradiction; try lia.
  cbn [SF_range] in Hx.
  assert (Hlt : (F2R (Zpos m) e < F2R n 0)%R) by (rewrite F2R_IZR; lra).
  split; [apply Z.shiftl_nonneg; lia|].
  destruct (Z_le_gt_dec 0 e) as [He|He].
  - rewrite Z.shiftl_mul_pow2 by exact He.
    rewrite (F2R_change_exp (Zpos m) e 0 He), Z.sub_0_r in Hlt.
    now apply F2R_lt_inv in Hlt.
  - rewrite Z.shiftl_div_pow2 by lia.
    rewrite (F2R_change_exp n 0 e ltac:(lia)) in Hlt. apply F2R_lt_inv in Hlt.
    replace (0 - e) with (- e) in Hlt by lia.
    apply Z.div_lt_upper_bound; [apply Z.pow_pos_nonneg; lia|lia].
Qed.

(** A float of [0, n] is below every threshold that the constant [n] is
    below. *)
Lemma float_range_leb_trans (x c thr : float) (n : Z) :
  float_is_int c n = true -> float_range x (IZR n) ->
  (c <=? thr)%float = true -> (x <=? thr)%float = true.
Proof.
  intros (m & e & Hc & Hb & Hv)%float_is_int_spec Hx. rewrite !leb_spec, Hc.
  pose proof (float_range_valid x _ Hx) as Hvx.
  pose proof (Prim2SF_valid thr) as Hvt.
  pose proof (F2R_pos (Zpos m) e ltac:(lia)) as Hpos.
  pose proof (float_range_SF2R x _ Hx) as Hxv.
  unfold float_range in Hx.
  destruct (Prim2SF thr) as [s|[|]| |[|] mt et]; try discriminate.
  - intros _. destruct (Prim2SF x) as [s|s| |[|] mx ex]; try contradiction; reflexivity.
  - intros Hle. cbn [valid_binary] in Hvt.
    apply SFleb_le in Hle; try (split; [assumption|reflexivity]).
    cbn [SF2R cond_Zopp] in Hle.
    apply SFleb_true; [exact Hvx|split; [assumption|reflexivity]|].
    cbn [SF2R cond_Zopp]. lra.
Qed.

(** *** Signs *)

(** The shapes a rounded result with sign [sx] can take. *)
Definition SF_signed (sx : bool) (r : spec_float) : Prop :=
  match r with
  | S754_zero s | S754_infinity s | S754_finite s _ _ => s = sx
  | S754_nan => True
  end.

Lemma binary_round_aux_signed sx mx ex lx :
  SF_signed sx (binary_round_aux prec emax sx mx ex lx).
Proof.
  unfold binary_round_aux.
  destruct (shr_fexp prec emax mx ex lx) as [mrs1 e1].
  destruct (shr_fexp prec emax _ e1 loc_Exact) as [mrs2 e2].
  destruct (shr_m mrs2); [reflexivity| |exact I].
  destruct (e2 <=? emax - prec); reflexivity.
Qed.

(** A square root is NaN, a zero, or positive. *)
Definition SF_not_negative (r : spec_float) : Prop :=
  match r with
  | S754_infinity true | S754_finite true _ _ => False
  | _ => True
  end.

Lemma SFsqrt_not_negative x : SF_not_negative (SFsqrt prec emax x).
Proof.
  destruct x as [s|[|]| |[|] m e]; cbn [SFsqrt SF_not_negative]; try exact I.
  destruct (SFsqrt_core_binary prec emax (Zpos m) e) as [[mz ez] lz].
  pose proof (binary_round_aux_signed false mz ez lz) as H.
  destruct (binary_round_aux prec emax false mz ez lz) as [s|s| |s mr er];
    cbn [SF_signed] in H; try exact I; subst s; exact I.
Qed.

(** No square root is at most a negative threshold. *)
Lemma sqrt_not_below_negative (s thr : float) :
  (thr <? 0)%float = true -> (PrimFloat.sqrt s <=? thr)%float = false.
Proof.
  rewrite ltb_spec, leb_spec, sqrt_spec. change (Prim2SF 0) with (S754_zero false).
  pose proof (SFsqrt_not_negative (Prim2SF s)) as H. unfold SF64sqrt.
  destruct (SFsqrt prec emax (Prim2SF s)) as [sr|[|]| |[|] mr er];
    try contradiction;
    destruct (Prim2SF thr) as [st|[|]| |[|] mt et]; try discriminate; reflexivity.
Qed.

(** *** Symmetry of the squared difference *)

Lemma binary_round_aux_opp sx mx ex lx :
  binary_round_aux prec emax (negb sx) mx ex lx
  = SFopp (binary_round_aux prec emax sx mx ex lx).
Proof.
  unfold binary_round_aux.
  destruct (shr_fexp prec emax mx ex lx) as [mrs1 e1].
  destruct (shr_fexp prec emax _ e1 loc_Exact) as [mrs2 e2].
  destruct (shr_m mrs2); [reflexivity| |reflexivity].
  destruct (e2 <=? emax - prec); reflexivity.
Qed.

Lemma binary_normalize_opp m e :
  binary_normalize prec emax (- m) e false
  = SFopp (binary_normalize prec emax m e false)
  \/ (m = 0 /\ binary_normalize prec emax (- m) e false = S754_zero false).
Proof.
  destruct m as [|m|m];
    [right; now split
    |change (- Z.pos m) with (Z.neg m)|change (- Z.neg m) with (Z.pos m)];
    left; cbn [binary_normalize]; unfold binary_round;
    destruct (shl_align m e _) as [mz ez].
  - apply (binary_round_aux_opp false).
  - rewrite (binary_round_aux_opp true). now destruct (binary_round_aux _ _ _ _ _ _).
Qed.

Lemma SFmul_opp_opp x : SFmul prec emax (SFopp x) (SFopp x) = SFmul prec emax x x.
Proof. destruct x as [[|]|[|]| |[|] m e]; reflexivity. Qed.

Lemma SFsub_swap_square x y :
  SFmul prec emax (SFsub prec emax x y) (SFsub prec emax x y)
  = SFmul prec emax (SFsub prec emax y x) (SFsub prec emax y x).
Proof.
  assert (H : SFsub prec emax y x = SFopp (SFsub prec emax x y)
              \/ SFsub prec emax y x = SFsub prec emax x y).
  { destruct x as [sx|sx| |sx mx ex], y as [sy|sy| |sy my ey];
      try (destruct sx, sy; cbn; tauto); try (destruct sx; cbn; tauto);
      try (destruct sy; cbn; tauto); try (cbn; tauto).
    cbn [SFsub]. rewrite (Z.min_comm ey ex).
    set (a := cond_Zopp sx (Zpos (shl_align mx ex (Z.min ex ey)).1)).
    set (b := cond_Zopp sy (Zpos (shl_align my ey (Z.min ex ey)).1)).
    replace (b - a) with (- (a - b)) by lia.
    destruct (binary_normalize_opp (a - b) (Z.min ex ey)) as [E|[E0 E]].
    - now left.
    - right. rewrite E, E0. reflexivity. }
  destruct H as [-> | ->]; [now rewrite SFmul_opp_opp | reflexivity].
Qed.

Lemma Prim2SF_inj (x y : float) : Prim2SF x = Prim2SF y -> x = y.
Proof. intros H. rewrite <- (SF2Prim_Prim2SF x), <- (SF2Prim_Prim2SF y). now f_equal. Qed.

Lemma sub_swap_square (x y : float) :
  ((x - y) * (x - y) = (y - x) * (y - x))%float.
Proof.
  apply Prim2SF_inj. rewrite !mul_spec, !sub_spec. apply SFsub_swap_square.
Qed.

(** *** Sums that are never negative *)

(** Zero, positive or plus infinity: what [0 <= x] holds of. *)
Definition SF_nonneg (r : spec_float) : Prop :=
  match r with
  | S754_zero _ | S754_infinity false | S754_finite false _ _ => True
  | _ => False
  end.

Lemma shr_nonneg mrs e n : 0 <= shr_m mrs -> 0 <= shr_m (shr mrs e n).1.
Proof.
  intros H.
  assert (Hb : shr_below (F2R (shr_m mrs) e + 1) mrs e).
  { split; [exact H|]. split; [lra|intros _; lra]. }
  now destruct (shr_below_shr _ mrs e n Hb) as [[H' _] _].
Qed.

Lemma shr_m_record_of_loc m l : shr_m (shr_record_of_loc m l) = m.
Proof. destruct l as [|[| |]]; reflexivity. Qed.

Lemma binary_round_aux_nonneg mx ex lx :
  0 <= mx -> SF_nonneg (binary_round_aux prec emax false mx ex lx).
Proof.
  intros Hmx. unfold binary_round_aux, shr_fexp.
  pose proof (shr_nonneg (shr_record_of_loc mx lx) ex
                (fexp prec emax (Zdigits2 mx + ex) - ex)) as H1.
  rewrite shr_m_record_of_loc in H1. specialize (H1 Hmx).
  destruct (shr (shr_record_of_loc mx lx) ex _) as [mrs1 e1]. cbn [fst] in H1.
  assert (HM : 0 <= round_nearest_even (shr_m mrs1) (loc_of_shr_record mrs1)).
  { destruct (round_nearest_even_cases mrs1) as [->|[-> _]]; lia. }
  pose proof (shr_nonneg (shr_record_of_loc
                            (round_nearest_even (shr_m mrs1) (loc_of_shr_record mrs1))
                            loc_Exact) e1
                (fexp prec emax
                   (Zdigits2 (round_nearest_even (shr_m mrs1) (loc_of_shr_record mrs1))
                    + e1) - e1)) as H2.
  rewrite shr_m_record_of_loc in H2. specialize (H2 HM).
  destruct (shr _ e1 _) as [mrs2 e2]. cbn [fst] in H2.
  destruct (shr_m mrs2); [exact I| |lia].
  destruct (e2 <=? emax - prec); exact I.
Qed.

Lemma SFadd_nonneg x y : SF_nonneg x -> SF_nonneg y -> SF_nonneg (SFadd prec emax x y).
Proof.
  destruct x as [[|]|[|]| |[|] mx ex]; try contradiction;
    destruct y as [[|]|[|]| |[|] my ey]; try contradiction; intros _ _; try exact I.
  cbn [SFadd cond_Zopp].
  set (m := Zpos _ + Zpos _). assert (Hm : 0 < m) by (unfold m; lia). clearbody m.
  destruct m as [|m|m]; try lia. cbn [binary_normalize]. unfold binary_round.
  destruct (shl_align m _ _) as [mz ez]. apply binary_round_aux_nonneg. lia.
Qed.

Lemma float_nonneg_leb (x : float) : SF_nonneg (Prim2SF x) -> (0 <=? x)%float = true.
Proof.
  rewrite leb_spec. change (Prim2SF 0) with (S754_zero false).
  destruct (Prim2SF x) as [s|[|]| |[|] m e]; try contradiction; reflexivity.
Qed.

Lemma float_leb_nonneg (x : float) : (0 <=? x)%float = true -> SF_nonneg (Prim2SF x).
Proof.
  rewrite leb_spec. change (Prim2SF 0) with (S754_zero false).
  destruct (Prim2SF x) as [s|[|]| |[|] m e]; try discriminate; intros _; exact I.
Qed.

Lemma add_nonneg (x y : float) :
  (0 <=? x)%float = true -> (0 <=? y)%float = true -> (0 <=? x + y)%float = true.
Proof.
  intros Hx%float_leb_nonneg Hy%float_leb_nonneg. apply float_nonneg_leb.
  rewrite add_spec. now apply SFadd_nonneg.
Qed.

(** *** Distance zero *)

(** A threshold equal to zero, of either sign, tests as [0] does. *)
Lemma leb_zero_threshold (x thr : float) :
  (thr =? 0)%float = true -> (x <=? thr)%float = (x <=? 0)%float.
Proof.
  rewrite FloatAxioms.eqb_spec, !leb_spec. change (Prim2SF 0) with (S754_zero false).
  destruct (Prim2SF thr) as [st|[|]| |[|] mt et]; try discriminate. intros _.
  destruct (Prim2SF x) as [sx|[|]| |[|] mx ex]; reflexivity.
Qed.

(** A square root is at most zero exactly when it is zero. *)
Lemma sqrt_leb_zero (s : float) :
  (PrimFloat.sqrt s <=? 0)%float = (PrimFloat.sqrt s =? 0)%float.
Proof.
  rewrite FloatAxioms.eqb_spec, leb_spec, sqrt_spec. change (Prim2SF 0) with (S754_zero false).
  pose proof (SFsqrt_not_negative (Prim2SF s)) as H. unfold SF64sqrt.
  destruct (SFsqrt prec emax (Prim2SF s)) as [sr|[|]| |[|] mr er];
    try contradiction; reflexivity.
Qed.

(** * The generator on binary64 *)

(** A random source as [Math.random] specifies it: every draw is a float
    of [0, 1). *)
Definition unit_draws (d : nat -> float) : Prop :=
  forall k, (0 <=? d k)%float = true /\ (d k <? 1)%float = true.

(** The scenario numNodes=3, proximityThreshold=1000, maxConnections=2,
    resourceCapacity=100. *)
Definition three_nodes_params : @NetworkParams Float64 :=
  MkNetworkParams Float64 3 1000%float 2 100%float.

(** The three scale factors of the source. *)
Lemma scales_400 : scales_strictly (float_of_Z 400) 400 = true.
Proof. vm_compute. reflexivity. Qed.

Lemma scales_300 : scales_strictly (float_of_Z 300) 300 = true.
Proof. vm_compute. reflexivity. Qed.

Lemma scales_200 : scales_strictly (float_of_Z 200) 200 = true.
Proof. vm_compute. reflexivity. Qed.

(** A position of the 400 x 300 box: each coordinate is a zero or a
    positive float, strictly below 400 and 300. *)
Definition in_box (nd : @FogNode.t Float64) : Prop :=
  (exists B, float_range (FogNode.x nd) B /\ (0 <= B < 400)%R)
  /\ (exists B, float_range (FogNode.y nd) B /\ (0 <= B < 300)%R).

Lemma float_range_weaken (x : float) (B B' : R) :
  (B <= B')%R -> float_range x B -> float_range x B'.
Proof. apply SF_range_weaken. Qed.

(** The distance of two positions of the box, as [calculateProximity]
    computes it, is at most 500: no rounding of the differences, of
    their squares, of the sum or of the root goes past 400 and 300,
    160000 and 90000, 250000, and 500. *)
Lemma proximity_in_box (a b : @FogNode.t Float64) :
  in_box a -> in_box b -> float_range (@calculateProximity Float64 a b) 500.
Proof.
  intros [(Bxa & Hxa & HBxa) (Bya & Hya & HBya)] [(Bxb & Hxb & HBxb) (Byb & Hyb & HByb)].
  unfold calculateProximity. cbn [num_sqrt num_add num_pow2 num_sub Float64].
  apply (sqrt_range _ 250000 500%float 500); [reflexivity| |lra].
  apply (add_range _ _ 160000 90000 250000%float 250000);
    [reflexivity| | |lra|lra|lra].
  - apply (square_range _ 400 160000%float 160000); [reflexivity| |lra].
    apply (sub_within _ _ 400%float 400); [reflexivity| |];
      eapply float_range_weaken; try eassumption; lra.
  - apply (square_range _ 300 90000%float 90000); [reflexivity| |lra].
    apply (sub_within _ _ 300%float 300); [reflexivity| |];
      eapply float_range_weaken; try eassumption; lra.
Qed.

Section Binary64Plane.
Variable d : nat -> float.
Variable p : @NetworkParams Float64.
Hypothesis Hd : unit_draws d.

Lemma newNodes_in_box nd : nd ∈ @newNodes Float64 d p -> in_box nd.
Proof.
  intros [j Hj]%list_elem_of_lookup.
  apply newNodes_lookup_inv in Hj as [_ ->].
  unfold in_box. rewrite nodeAt_x, nodeAt_y. cbn [num_mul num_of_Z Float64].
  destruct (Hd (6 * j)%nat) as [Hx0 Hx1]. destruct (Hd (S (6 * j))) as [Hy0 Hy1].
  split.
  - exact (scale_draw_strictly _ _ 400 scales_400 Hx0 Hx1).
  - exact (scale_draw_strictly _ _ 300 scales_300 Hy0 Hy1).
Qed.

Lemma generated_nodes_in_box nd : nd ∈ @generated_nodes Float64 d p -> in_box nd.
Proof.
  intros (nd0 & Hnd0 & ->)%generated_node_inv. exact (newNodes_in_box nd0 Hnd0).
Qed.

(** With a threshold of 500 or more every node is within reach of every
    other. *)
Lemma all_reachable_from_500 (a b : @FogNode.t Float64) :
  (500 <=? proximityThreshold p)%float = true ->
  a ∈ @newNodes Float64 d p -> b ∈ @newNodes Float64 d p ->
  (@calculateProximity Float64 a b <=? proximityThreshold p)%num = true.
Proof.
  intros Hthr Ha Hb. cbn [num_leb Float64].
  apply (float_range_leb_trans _ 500%float _ 500); [reflexivity| |exact Hthr].
  apply proximity_in_box; now apply newNodes_in_box.
Qed.

End Binary64Plane.

(** C10.  Every node of a generation call lies in the 400 x 300 box,
    0 <= x < 400 and 0 <= y < 300, and so no two nodes are more than 500
    apart: the distance the code computes for them is at most 500. *)
Theorem nodes_in_visualization_bounds (d : nat -> float) (p : @NetworkParams Float64) :
  unit_draws d ->
  Forall (fun nd : @FogNode.t Float64 =>
            (0 <=? FogNode.x nd)%float = true /\ (FogNode.x nd <? 400)%float = true
            /\ (0 <=? FogNode.y nd)%float = true /\ (FogNode.y nd <? 300)%float = true)
    (@generated_nodes Float64 d p)
  /\ Forall (fun a => Forall (fun b =>
         (@calculateProximity Float64 a b <=? 500)%float = true)
       (@generated_nodes Float64 d p)) (@generated_nodes Float64 d p).
Proof.
  intros Hd. split.
  - apply Forall_forall. intros nd Hnd.
    destruct (generated_nodes_in_box d p Hd nd Hnd)
      as [(Bx & Hx & HBx) (By & Hy & HBy)].
    split; [exact (float_range_nonneg _ _ Hx)|].
    split; [exact (float_range_ltb _ 400%float 400 Bx eq_refl Hx HBx)|].
    split; [exact (float_range_nonneg _ _ Hy)|].
    exact (float_range_ltb _ 300%float 300 By eq_refl Hy HBy).
  - apply Forall_forall. intros a Ha. apply Forall_forall. intros b Hb.
    apply (float_range_leb _ 500%float 500); [reflexivity|].
    apply proximity_in_box; now apply (generated_nodes_in_box d p Hd).
Qed.

(** C7.  With numNodes=3, proximityThreshold=1000 and maxConnections=2,
    wherever the three nodes fall inside the bounds, the output is the six
    directed edges 0->1, 0->2, 1->0, 1->2, 2->0, 2->1: two leaving each
    node, which is the cap. *)
Theorem three_nodes_fully_connected (d : nat -> float) :
  unit_draws d ->
  ends <$> @generated_edges Float64 d three_nodes_params
  = [(0, 1); (0, 2); (1, 0); (1, 2); (2, 0); (2, 1)]
  /\ List.length (@generated_edges Float64 d three_nodes_params) = 6%nat
  /\ Forall (fun nd =>
       List.length (out_edges (FogNode.id nd) (@generated_edges Float64 d three_nodes_params))
       = 2%nat
       /\ Z.of_nat (List.length (FogNode.connections nd))
          <= maxConnections three_nodes_params)
     (@generated_nodes Float64 d three_nodes_params).
Proof.
  intros Hd. set (p := three_nodes_params).
  set (L := @newNodes Float64 d p).
  set (n0 := @nodeAt Float64 d p 0 0).
  set (n1 := @nodeAt Float64 d p 1 6).
  set (n2 := @nodeAt Float64 d p 2 12).
  assert (Hreach : forall a b, a ∈ L -> b ∈ L ->
            (@calculateProximity Float64 a b <=? proximityThreshold p)%num = true).
  { intros a b. apply (all_reachable_from_500 d p Hd). reflexivity. }
  assert (HL : L = [n0; n1; n2]) by reflexivity.
  assert (H0 : n0 ∈ L) by (rewrite HL, !elem_of_cons; tauto).
  assert (H1 : n1 ∈ L) by (rewrite HL, !elem_of_cons; tauto).
  assert (H2 : n2 ∈ L) by (rewrite HL, !elem_of_cons; tauto).
  pose proof (@ends_outgoing_all_reachable Float64 d p Hreach _ H0) as E0.
  pose proof (@ends_outgoing_all_reachable Float64 d p Hreach _ H1) as E1.
  pose proof (@ends_outgoing_all_reachable Float64 d p Hreach _ H2) as E2.
  change ((fun c => _) <$> _) with [(0, 1); (0, 2)] in E0.
  change ((fun c => _) <$> _) with [(1, 0); (1, 2)] in E1.
  change ((fun c => _) <$> _) with [(2, 0); (2, 1)] in E2.
  fold L in E0, E1, E2.
  assert (Hnodes : @generated_nodes Float64 d p
                   = [processed p L n0; processed p L n1; processed p L n2]).
  { rewrite generated_nodes_eq. reflexivity. }
  assert (Hedges : @generated_edges Float64 d p
                   = outgoing p L n0 ++ outgoing p L n1 ++ outgoing p L n2 ++ []).
  { rewrite generated_edges_eq. reflexivity. }
  assert (Hends : ends <$> @generated_edges Float64 d p
                  = [(0, 1); (0, 2); (1, 0); (1, 2); (2, 0); (2, 1)]).
  { rewrite Hedges, !fmap_app, E0, E1, E2. reflexivity. }
  assert (Hout : forall nd pairs,
             nd ∈ L -> ends <$> outgoing p L nd = pairs -> List.length pairs = 2%nat ->
             List.length (out_edges (FogNode.id (processed p L nd))
                            (@generated_edges Float64 d p)) = 2%nat
             /\ Z.of_nat (List.length (FogNode.connections (processed p L nd)))
                <= maxConnections p).
  { intros nd pairs Hnd E Hlen.
    assert (Hcands : List.length (candidates p L nd) = 2%nat).
    { rewrite <- Hlen, <- E. unfold outgoing. now rewrite !length_fmap. }
    split.
    - change (FogNode.id (processed p L nd)) with (FogNode.id nd).
      unfold L. rewrite out_edges_generated by exact Hnd.
      unfold outgoing. rewrite length_fmap. exact Hcands.
    - cbn [processed push_connections FogNode.connections].
      rewrite (@newNodes_fresh Float64 d p nd Hnd), app_nil_l, length_fmap, Hcands.
      cbn. lia. }
  split; [exact Hends|]. split.
  - rewrite <- (length_fmap ends), Hends. reflexivity.
  - rewrite Hnodes.
    apply List.Forall_cons; [exact (Hout n0 _ H0 E0 eq_refl)|].
    apply List.Forall_cons; [exact (Hout n1 _ H1 E1 eq_refl)|].
    apply List.Forall_cons; [exact (Hout n2 _ H2 E2 eq_refl)|].
    apply List.Forall_nil.
Qed.

(** ** A threshold of zero *)

(** On binary64 the distance test against a zero threshold is the test
    that the distance is zero. *)
Lemma zero_threshold_test (p : @NetworkParams Float64) (a b : @FogNode.t Float64) :
  (proximityThreshold p =? 0)%float = true ->
  (@calculateProximity Float64 a b <=? proximityThreshold p)%num
  = (@calculateProximity Float64 a b =? 0)%float.
Proof.
  intros Hthr. cbn [num_leb Float64]. rewrite (leb_zero_threshold _ _ Hthr).
  unfold calculateProximity. cbn [num_sqrt Float64]. apply sqrt_leb_zero.
Qed.

(** C5 (as amended).  With [proximityThreshold = 0] there is no edge at
    all, whatever [maxConnections] is, provided no two distinct nodes are
    at distance 0 of each other.  The proviso cannot be dropped: when
    [maxConnections >= 1], an output without edges has no two distinct
    nodes at distance 0. *)
Theorem zero_threshold_no_edges_unless_coincident
    (d : nat -> float) (p : @NetworkParams Float64) :
  (proximityThreshold p =? 0)%float = true ->
  (Forall (fun a => Forall (fun b =>
       FogNode.id a <> FogNode.id b ->
       (@calculateProximity Float64 a b =? 0)%float = false)
     (@generated_nodes Float64 d p)) (@generated_nodes Float64 d p) ->
   @generated_edges Float64 d p = [])
  /\ (1 <= maxConnections p ->
      @generated_edges Float64 d p = [] ->
      Forall (fun a => Forall (fun b =>
          FogNode.id a <> FogNode.id b ->
          (@calculateProximity Float64 a b =? 0)%float = false)
        (@generated_nodes Float64 d p)) (@generated_nodes Float64 d p)).
Proof.
  intros Hthr. split.
  - intros Hapart.
    destruct (@generated_edges Float64 d p) as [|e es] eqn:E; [reflexivity|exfalso].
    assert (He : e ∈ @generated_edges Float64 d p) by (rewrite E; left).
    apply generated_edge_inv in He as (nd & c & Hnd & Hc & Hel & _).
    apply eligible_inv in Hel as (Hid & Hle & _).
    rewrite (zero_threshold_test p nd c Hthr) in Hle.
    rewrite Forall_forall in Hapart.
    specialize (Hapart (processed p (@newNodes Float64 d p) nd)).
    rewrite Forall_forall in Hapart.
    rewrite generated_nodes_eq in Hapart.
    specialize (Hapart (list_elem_of_fmap_2 _ _ _ Hnd)
                  (processed p (@newNodes Float64 d p) c) (list_elem_of_fmap_2 _ _ _ Hc)).
    change (@calculateProximity Float64 (processed p (@newNodes Float64 d p) nd)
              (processed p (@newNodes Float64 d p) c))
      with (@calculateProximity Float64 nd c) in Hapart.
    rewrite Hle in Hapart.
    assert (true = false) by (apply Hapart; cbn; congruence). discriminate.
  - intros Hcap Hnil. apply Forall_forall. intros a Ha. apply Forall_forall.
    intros b Hb Hid.
    apply generated_node_inv in Ha as (a0 & Ha0 & ->).
    apply generated_node_inv in Hb as (b0 & Hb0 & ->).
    change (@calculateProximity Float64 (processed p (@newNodes Float64 d p) a0)
              (processed p (@newNodes Float64 d p) b0))
      with (@calculateProximity Float64 a0 b0).
    destruct (@calculateProximity Float64 a0 b0 =? 0)%float eqn:E0; [exfalso|reflexivity].
    apply (@edge_when_within_reach Float64 d p a0 b0 Ha0 Hb0); [|exact Hcap|exact Hnil].
    unfold within_reach. rewrite (zero_threshold_test p a0 b0 Hthr), E0, andb_true_r.
    apply negb_true_iff, Z.eqb_neq. cbn in Hid. congruence.
Qed.

(** ** Resources and colours *)

Lemma foldl_resources_nonneg (l : list (@FogNode.t Float64)) :
  Forall (fun nd : @FogNode.t Float64 => (0 <=? FogNode.resources nd)%float = true) l ->
  forall a : float, (0 <=? a)%float = true ->
    (0 <=? foldl (fun sum (node : @FogNode.t Float64) =>
                    (sum + FogNode.resources node)%float) a l)%float = true.
Proof.
  induction 1 as [|nd l Hnd _ IH]; intros a Ha; [exact Ha|].
  cbn [foldl]. apply IH. now apply add_nonneg.
Qed.

(** The bound of X10 is not strict: for the smallest positive capacity a
    draw of 3/4 gives the capacity itself. *)
Example smallest_capacity_is_reached :
  (0.75 * 0x1p-1074 =? 0x1p-1074)%float = true.
Proof. reflexivity. Qed.

Section Binary64Statistics.
Variable d : nat -> float.
Variable p : @NetworkParams Float64.

(** X10.  With draws in [0, 1) and a finite [resourceCapacity >= 0],
    every node's [resources] satisfies 0 <= resources <= resourceCapacity,
    and the "Total Network Resources" sum is not negative (and not NaN). *)
Theorem resources_within_capacity :
  unit_draws d ->
  (0 <=? resourceCapacity p)%float = true ->
  (resourceCapacity p <? infinity)%float = true ->
  Forall (fun nd : @FogNode.t Float64 =>
            (0 <=? FogNode.resources nd)%float = true
            /\ (FogNode.resources nd <=? resourceCapacity p)%float = true)
    (@generated_nodes Float64 d p)
  /\ (0 <=? @totalResources Float64 (@generated_nodes Float64 d p))%float = true.
Proof.
  intros Hd Hc0 Hc1.
  assert (Hall : Forall (fun nd : @FogNode.t Float64 =>
            (0 <=? FogNode.resources nd)%float = true
            /\ (FogNode.resources nd <=? resourceCapacity p)%float = true)
            (@generated_nodes Float64 d p)).
  { apply Forall_forall. intros nd [j ->]%generated_node_at.
    cbn [processed push_connections FogNode.resources].
    rewrite nodeAt_resources. cbn [num_mul Float64].
    destruct (Hd (2 + 6 * j)%nat) as [H0 H1].
    exact (scale_draw_capacity _ _ H0 H1 Hc0 Hc1). }
  split; [exact Hall|].
  unfold totalResources. cbn [num_add num_of_Z Float64].
  apply foldl_resources_nonneg; [|reflexivity].
  eapply Forall_impl; [exact Hall|]. cbn. tauto.
Qed.

(** X11.  With draws in [0, 1) every node's colour is
    ["rgb(r, g, b)"] for integer channels 0 <= r, g, b < 200. *)
Theorem colors_are_dark_rgb :
  unit_draws d ->
  Forall (fun nd : @FogNode.t Float64 =>
            exists r g b : Z,
              0 <= r < 200 /\ 0 <= g < 200 /\ 0 <= b < 200
              /\ FogNode.color nd = rgb r g b)
    (@generated_nodes Float64 d p).
Proof.
  intros Hd. apply Forall_forall. intros nd [j ->]%generated_node_at.
  assert (Hch : forall k, 0 <= float_floor (d k * float_of_Z 200) < 200).
  { intros k. destruct (Hd k) as [H0 H1].
    destruct (scale_draw_strictly _ _ 200 scales_200 H0 H1) as (B & HB & Hlt).
    apply (float_floor_range _ B 200); [exact HB|lra|lia]. }
  exists (float_floor (d (3 + 6 * j)%nat * float_of_Z 200)),
         (float_floor (d (4 + 6 * j)%nat * float_of_Z 200)),
         (float_floor (d (5 + 6 * j)%nat * float_of_Z 200)).
  split; [apply Hch|]. split; [apply Hch|]. split; [apply Hch|]. reflexivity.
Qed.

(** X12.  With draws in [0, 1) and a threshold of 500 or more (the
    diagonal of the box) geometry plays no part: every node has exactly
    [min(maxConnections, numNodes - 1)] outgoing edges. *)
Theorem out_degree_when_all_reachable :
  unit_draws d -> (500 <=? proximityThreshold p)%float = true ->
  1 <= numNodes p -> 0 <= maxConnections p ->
  Forall (fun nd =>
            Z.of_nat (List.length (out_edges (FogNode.id nd) (@generated_edges Float64 d p)))
            = Z.min (maxConnections p) (numNodes p - 1))
    (@generated_nodes Float64 d p).
Proof.
  intros Hd Hthr Hn Hm.
  apply (@out_degree_all_reachable Float64 d p); [|exact Hn|exact Hm].
  intros a b. now apply (all_reachable_from_500 d p Hd).
Qed.

(** The distance is symmetric on binary64, rounding included. *)
Lemma proximity_symmetric (a b : @FogNode.t Float64) :
  @calculateProximity Float64 a b = @calculateProximity Float64 b a.
Proof.
  unfold calculateProximity. cbn [num_sqrt num_add num_pow2 num_sub Float64].
  now rewrite (sub_swap_square (FogNode.x a)), (sub_swap_square (FogNode.y a)).
Qed.

(** X13.  When the cap cannot bind ([maxConnections >= numNodes - 1]) the
    network is symmetric: every edge a -> b comes with the edge b -> a. *)
Theorem symmetric_when_cap_is_slack :
  numNodes p - 1 <= maxConnections p ->
  Forall (fun e => (Edge.to e, Edge.from e) ∈ ends <$> @generated_edges Float64 d p)
    (@generated_edges Float64 d p).
Proof.
  apply (@reverse_edge_when_cap_is_slack Float64 d p). exact proximity_symmetric.
Qed.

(** X14.  A negative threshold admits no edge, since no distance is
    negative: [Math.sqrt] returns NaN, a zero or a positive number. *)
Theorem no_edges_below_zero_threshold :
  (proximityThreshold p <? 0)%float = true -> @generated_edges Float64 d p = [].
Proof.
  intros Hthr.
  destruct (@generated_edges Float64 d p) as [|e es] eqn:E; [reflexivity|exfalso].
  assert (He : e ∈ @generated_edges Float64 d p) by (rewrite E; left).
  apply generated_edge_inv in He as (nd & c & _ & _ & Hel & _).
  apply eligible_inv in Hel as (_ & Hle & _).
  unfold calculateProximity in Hle. cbn [num_sqrt num_leb Float64] in Hle.
  rewrite (sqrt_not_below_negative _ _ Hthr) in Hle. discriminate Hle.
Qed.

End Binary64Statistics.

(** ** A threshold that is not a number (binary64) *)

Lemma leb_nan (x : float) : PrimFloat.leb x nan = false.
Proof.
  rewrite leb_spec. change (Prim2SF nan) with S754_nan.
  destruct (Prim2SF x) as [s| s| |s m e]; reflexivity.
Qed.

(** X15.  On binary64, when [proximityThreshold] is NaN (the value the
    form stores when its box is emptied) no edge is created, whatever the
    draws and the other parameters are. *)
Theorem no_edges_when_threshold_is_nan (d : nat -> float) (p : @NetworkParams Float64) :
  proximityThreshold p = nan -> @generated_edges Float64 d p = [].
Proof.
  intros Hthr.
  destruct (@generated_edges Float64 d p) as [|e es] eqn:E; [reflexivity|exfalso].
  assert (He : e ∈ @generated_edges Float64 d p) by (rewrite E; left).
  apply generated_edge_inv in He as (nd & c & _ & _ & Hel & _).
  apply eligible_inv in Hel as (_ & Hle & _).
  rewrite Hthr in Hle. cbn [num_leb Float64] in Hle.
  rewrite leb_nan in Hle. discriminate Hle.
Qed.

(** ** The page as a state machine *)

(** The component holds [networkParams], [nodes] and [edges] in React
    state (page.tsx:30-37), regenerates the network in an effect whose
    dependencies are [numNodes] and [proximityThreshold] (page.tsx:105-107),
    updates one parameter in each [onChange] handler (page.tsx:123-126,
    139-142, 156-159) and regenerates on a click (page.tsx:169). *)

(** The [networkParams] state.  [numNodes] and [maxConnections] are
    results of [Math.max(1, parseInt(...))]: an integer, or NaN ([None])
    when the box holds no number. *)
Record ParamsState `{N : Number} : Type := MkParamsState {
  ui_numNodes : option Z;
  ui_proximityThreshold : num;
  ui_maxConnections : option Z;
  ui_resourceCapacity : num
}.

Record PageState `{N : Number} : Type := MkPageState {
  ps_params : ParamsState;
  ps_nodes : list FogNode.t;
  ps_edges : list Edge.t;
  ps_draws : nat                 (* how many times Math.random() was called *)
}.

(** The three inputs, with what [parseInt] or [parseFloat] returned. *)
Inductive Input `{N : Number} : Type :=
  | NumNodesInput (parsed : option Z)
  | ProximityThresholdInput (parsed : num)
  | MaxConnectionsInput (parsed : option Z).

Inductive Event `{N : Number} : Type :=
  | Change (i : Input)
  | ClickRegenerate.

Section Page.
Context `{N : Number}.

(** The values of [Math.random()] over the life of the page. *)
Variable d : nat -> num.

(** The initial value given to [useState] (page.tsx:32-37). *)
Definition initial_params : ParamsState :=
  MkParamsState _ (Some 20) (num_of_Z 50) (Some 5) (num_of_Z 100).

(** [Math.max(a, v)] for an integer [a] and a result of [parseInt]: NaN
    if [v] is NaN. *)
Definition Math_max_int (a : Z) (v : option Z) : option Z := Z.max a <$> v.

(** [Math.max(a, v)] on numbers, for [a] other than zero: [v] when
    [a <= v], [a] when [v <= a], and [v] itself (a NaN) when [v]
    compares with nothing. *)
Definition Math_max_num (a v : num) : num :=
  if (a <=? v)%num then v else if (v <=? a)%num then a else v.

(** The updater passed to [setNetworkParams] by each [onChange]. *)
Definition onChange (i : Input) (prev : ParamsState) : ParamsState :=
  match i with
  | NumNodesInput parsed =>
      MkParamsState _ (Math_max_int 1 parsed) (ui_proximityThreshold prev)
        (ui_maxConnections prev) (ui_resourceCapacity prev)
  | ProximityThresholdInput parsed =>
      MkParamsState _ (ui_numNodes prev) (Math_max_num (num_of_Z 10) parsed)
        (ui_maxConnections prev) (ui_resourceCapacity prev)
  | MaxConnectionsInput parsed =>
      MkParamsState _ (ui_numNodes prev) (ui_proximityThreshold prev)
        (Math_max_int 1 parsed) (ui_resourceCapacity prev)
  end.

(** What [initializeNetwork] reads from the state.  A NaN [numNodes]
    makes [Array.from] build nothing, as 0 does; a NaN [maxConnections]
    makes the test [connections.length < maxConnections] false and
    [slice(0, maxConnections)] empty, as 0 does. *)
Definition params_of (u : ParamsState) : NetworkParams :=
  MkNetworkParams _ (default 0 (ui_numNodes u)) (ui_proximityThreshold u)
    (default 0 (ui_maxConnections u)) (ui_resourceCapacity u).

(** A call of [initializeNetwork] in a render whose parameters are [u]:
    it draws from where the page is in the stream and stores its results
    with [setNodes] and [setEdges]. *)
Definition run_initializeNetwork (u : ParamsState) (s : PageState) : PageState :=
  let r := initializeNetwork_rand d (params_of u) (ps_draws s) in
  MkPageState _ u r.1.1 r.1.2 r.2.

(** The dependency array of the effect. *)
Definition effect_deps (u : ParamsState) : option Z * num :=
  (ui_numNodes u, ui_proximityThreshold u).

(** One event.  After a change of [networkParams] the effect runs when a
    dependency differs from its value in the previous render
    ([Object.is]); a click calls [initializeNetwork] directly. *)
Inductive step : PageState -> Event -> PageState -> Prop :=
  | step_change_effect s i :
      effect_deps (onChange i (ps_params s)) <> effect_deps (ps_params s) ->
      step s (Change i) (run_initializeNetwork (onChange i (ps_params s)) s)
  | step_change_only s i :
      effect_deps (onChange i (ps_params s)) = effect_deps (ps_params s) ->
      step s (Change i)
        (MkPageState _ (onChange i (ps_params s)) (ps_nodes s) (ps_edges s) (ps_draws s))
  | step_click s :
      step s ClickRegenerate (run_initializeNetwork (ps_params s) s).

(** The page once the effect has run after mounting. *)
Definition mounted : PageState :=
  run_initializeNetwork initial_params (MkPageState _ initial_params [] [] 0).

Inductive reachable : PageState -> Prop :=
  | reach_mounted : reachable mounted
  | reach_step s ev s' : reachable s -> step s ev s' -> reachable s'.

(** The parameters [p] with another cap. *)
Definition with_maxConnections (m : Z) (p : NetworkParams) : NetworkParams :=
  MkNetworkParams _ (numNodes p) (proximityThreshold p) m (resourceCapacity p).

Lemma with_maxConnections_same (p : NetworkParams) :
  with_maxConnections (maxConnections p) p = p.
Proof. now destruct p. Qed.

Lemma initializeNetwork_rand_result (p : NetworkParams) k :
  (initializeNetwork_rand d p k).1 = initializeNetwork (shift_draws k d) p.
Proof.
  rewrite initializeNetwork_unfold, <- Array_from_shift.
  unfold initializeNetwork_rand, bind, ret.
  now destruct (Array_from (numNodes p) (placeNode d p) k).
Qed.

Lemma run_initializeNetwork_shown u s :
  (ps_nodes (run_initializeNetwork u s), ps_edges (run_initializeNetwork u s))
  = initializeNetwork (shift_draws (ps_draws s) d) (params_of u).
Proof.
  unfold run_initializeNetwork. cbn [ps_nodes ps_edges].
  rewrite <- initializeNetwork_rand_result.
  now destruct (initializeNetwork_rand d (params_of u) (ps_draws s)) as [[ns es] k].
Qed.

Lemma onChange_resourceCapacity i u :
  ui_resourceCapacity (onChange i u) = ui_resourceCapacity u.
Proof. now destruct i. Qed.

(** What is shown was generated with the current [numNodes],
    [proximityThreshold] and [resourceCapacity], and with some cap. *)
Definition shown_from_generation (s : PageState) : Prop :=
  exists k m,
    (ps_nodes s, ps_edges s)
    = initializeNetwork (shift_draws k d)
        (with_maxConnections m (params_of (ps_params s))).

Lemma run_initializeNetwork_from_generation u s :
  shown_from_generation (run_initializeNetwork u s).
Proof.
  exists (ps_draws s), (maxConnections (params_of u)).
  rewrite run_initializeNetwork_shown. cbn [ps_params run_initializeNetwork].
  now rewrite with_maxConnections_same.
Qed.

Lemma reachable_from_generation s : reachable s -> shown_from_generation s.
Proof.
  induction 1 as [|s ev s' _ IH Hstep].
  - apply run_initializeNetwork_from_generation.
  - destruct Hstep as [s i _|s i Hdeps|s].
    + apply run_initializeNetwork_from_generation.
    + destruct IH as (k & m & IH). exists k, m. cbn [ps_nodes ps_edges ps_params].
      rewrite IH. f_equal. unfold with_maxConnections, params_of. cbn.
      unfold effect_deps in Hdeps. injection Hdeps as Hn Ht.
      now rewrite Hn, Ht, onChange_resourceCapacity.
    + apply run_initializeNetwork_from_generation.
Qed.

(** X16.  In every state the page can reach, [numNodes] and
    [maxConnections] are NaN or at least 1, and [resourceCapacity] is the
    initial 100: no handler writes it. *)
Theorem page_parameters_stay_clamped s :
  reachable s ->
  (forall n, ui_numNodes (ps_params s) = Some n -> 1 <= n)
  /\ (forall m, ui_maxConnections (ps_params s) = Some m -> 1 <= m)
  /\ ui_resourceCapacity (ps_params s) = num_of_Z 100.
Proof.
  assert (Hmax : forall v n, Math_max_int 1 v = Some n -> 1 <= n).
  { intros [v|] n; cbn; [|discriminate]. intros [= <-]. lia. }
  assert (Hini : (forall n, ui_numNodes initial_params = Some n -> 1 <= n)
                 /\ (forall m, ui_maxConnections initial_params = Some m -> 1 <= m)
                 /\ ui_resourceCapacity initial_params = num_of_Z 100).
  { cbn. repeat split; intros ? [= <-]; lia. }
  assert (Hchg : forall i u,
            ((forall n, ui_numNodes u = Some n -> 1 <= n)
             /\ (forall m, ui_maxConnections u = Some m -> 1 <= m)
             /\ ui_resourceCapacity u = num_of_Z 100) ->
            (forall n, ui_numNodes (onChange i u) = Some n -> 1 <= n)
            /\ (forall m, ui_maxConnections (onChange i u) = Some m -> 1 <= m)
            /\ ui_resourceCapacity (onChange i u) = num_of_Z 100).
  { intros [v|v|v] u (H1 & H2 & H3); cbn; repeat split; eauto. }
  induction 1 as [|s ev s' _ IH Hstep]; [exact Hini|].
  destruct Hstep as [s i _|s i _|s]; cbn [ps_params run_initializeNetwork];
    auto.
Qed.

Lemma find_in_generated (d' : nat -> num) (p : NetworkParams) nd :
  nd ∈ newNodes d' p ->
  List.find (fun n => FogNode.id n =? FogNode.id nd) (generated_nodes d' p)
  = Some (processed p (newNodes d' p) nd).
Proof.
  intros Hnd.
  assert (Hids : NoDup (FogNode.id <$> generated_nodes d' p))
    by (rewrite generated_nodes_ids; apply NoDup_seqZ).
  apply (find_unique_id _ (processed p (newNodes d' p) nd) Hids).
  rewrite generated_nodes_eq. now apply list_elem_of_fmap_2.
Qed.


(** X18.  Typing in the "Max Connections" box never regenerates: nodes,
    edges and the number of draws made are what they were, so a network
    built under the old cap stays on display. *)
Theorem max_connections_input_keeps_network s parsed s' :
  step s (Change (MaxConnectionsInput parsed)) s' ->
  ps_nodes s' = ps_nodes s /\ ps_edges s' = ps_edges s /\ ps_draws s' = ps_draws s
  /\ ui_maxConnections (ps_params s') = Math_max_int 1 parsed.
Proof.
  intros Hstep. inversion Hstep as [s0 i Hdeps|s0 i Hdeps|]; subst.
  - exfalso. apply Hdeps. reflexivity.
  - repeat split; reflexivity.
Qed.

Lemma reachable_cap_positive s m :
  reachable s -> ui_maxConnections (ps_params s) = Some m -> 1 <= m.
Proof.
  intros Hreach. revert m. induction Hreach as [|s ev s' _ IH Hstep]; intros m.
  - cbn. intros [= <-]. lia.
  - destruct Hstep as [s i _|s i _|s]; cbn [ps_params run_initializeNetwork];
      try apply IH; destruct i as [v|v|v]; cbn; try apply IH.
    all: destruct v as [v|]; cbn; [intros [= <-]; lia | discriminate].
Qed.

(** X19.  After a click on "Regenerate Network" in a reachable state, no
    node shown has more outgoing edges than the current [maxConnections]
    (none at all when it is NaN). *)
Theorem regenerate_applies_current_cap s s' :
  reachable s -> step s ClickRegenerate s' ->
  Forall (fun nd =>
       Z.of_nat (List.length (out_edges (FogNode.id nd) (ps_edges s')))
       <= default 0 (ui_maxConnections (ps_params s')))
    (ps_nodes s').
Proof.
  intros Hreach Hstep. inversion Hstep; subst.
  pose proof (run_initializeNetwork_shown (ps_params s) s) as Hshown.
  set (p := params_of (ps_params s)) in *.
  set (d' := shift_draws (ps_draws s) d) in *.
  assert (Hn : ps_nodes (run_initializeNetwork (ps_params s) s) = generated_nodes d' p)
    by (unfold generated_nodes; now rewrite <- Hshown).
  assert (He : ps_edges (run_initializeNetwork (ps_params s) s) = generated_edges d' p)
    by (unfold generated_edges; now rewrite <- Hshown).
  rewrite Hn, He. cbn [ps_params run_initializeNetwork].
  assert (Hm : 0 <= maxConnections p).
  { cbn. destruct (ui_maxConnections (ps_params s)) as [m|] eqn:Em; cbn; [|lia].
    pose proof (reachable_cap_positive s m Hreach Em). lia. }
  apply Forall_forall. intros nd (nd0 & Hnd0 & ->)%generated_node_inv.
  cbn [processed push_connections FogNode.id].
  rewrite out_edges_generated by exact Hnd0.
  unfold outgoing. rewrite length_fmap.
  apply candidates_length; [now apply (newNodes_fresh d' p) | exact Hm].
Qed.

End Page.

Section PageThreshold.
Context `{N : Number}.
Variable d : nat -> num.

(** X20.  In a number model where 10 <= 50 and 10 <= 10 evaluate to true,
    the page never holds a [proximityThreshold] below 10: in every
    reachable state either [10 <= proximityThreshold] holds or
    [proximityThreshold <= 10] fails (the threshold is NaN). *)
Theorem page_threshold_never_below_10 s :
  (num_of_Z 10 <=? num_of_Z 50)%num = true ->
  (num_of_Z 10 <=? num_of_Z 10)%num = true ->
  reachable d s ->
  (num_of_Z 10 <=? ui_proximityThreshold (ps_params s))%num = true
  \/ (ui_proximityThreshold (ps_params s) <=? num_of_Z 10)%num = false.
Proof.
  intros H50 H10.
  assert (Hchg : forall i u,
            ((num_of_Z 10 <=? ui_proximityThreshold u)%num = true
             \/ (ui_proximityThreshold u <=? num_of_Z 10)%num = false) ->
            (num_of_Z 10 <=? ui_proximityThreshold (onChange i u))%num = true
            \/ (ui_proximityThreshold (onChange i u) <=? num_of_Z 10)%num = false).
  { intros [v|v|v] u Hu; cbn [onChange ui_proximityThreshold]; try exact Hu.
    unfold Math_max_num.
    destruct (num_of_Z 10 <=? v)%num eqn:E1; [now left|].
    destruct (v <=? num_of_Z 10)%num eqn:E2; [now left | now right]. }
  induction 1 as [|s ev s' _ IH Hstep].
  - left. exact H50.
  - destruct Hstep as [s i _|s i _|s]; cbn [ps_params run_initializeNetwork];
      auto.
Qed.

End PageThreshold.

(** ** Renders and effects *)

(** [step] takes the page from one settled state to the next: the
    handler, the re-render and the effect of an event have all run, and
    [initializeNetwork] is taken to return.  Two things happen in between
    on the real page.  React first commits the render of the new
    parameters, with the nodes and edges of before, and runs the effect
    after that; and the effect throws when [Array.from] does.  The
    relation below has both: a screen is a committed render together with
    whether its effect is still to run, and a call that throws has no
    successor (an exception in an effect unmounts the component). *)

Record Screen `{N : Number} : Type := MkScreen {
  sc_state : PageState;
  sc_effect_pending : bool
}.

Section Renders.
Context `{N : Number}.
Variable d : nat -> num.

(** [initializeNetwork] called in a render of parameters [u]: [None]
    when it throws. *)
Definition run_initializeNetwork_checked (u : ParamsState) (s : PageState)
  : option PageState :=
  match initializeNetwork_checked d (params_of u) (ps_draws s) with
  | (Some r, k) => Some (MkPageState _ u r.1 r.2 k)
  | (None, _) => None
  end.

(** The state after [setNetworkParams]: the new parameters, and what
    [nodes] and [edges] held. *)
Definition with_params (u : ParamsState) (s : PageState) : PageState :=
  MkPageState _ u (ps_nodes s) (ps_edges s) (ps_draws s).

(** The first render: the initial state, no node yet, and the effect of
    mounting to run. *)
Definition first_render : Screen :=
  MkScreen _ (MkPageState _ initial_params [] [] 0) true.

(** From one committed render to the next.  Events are handled once the
    pending effect has run.  A change commits the new parameters and
    leaves the effect pending exactly when a dependency differs; the
    effect and a click call [initializeNetwork] and commit its results. *)
Inductive commit : Screen -> Screen -> Prop :=
  | commit_change sc i :
      sc_effect_pending sc = false ->
      effect_deps (onChange i (ps_params (sc_state sc)))
        <> effect_deps (ps_params (sc_state sc)) ->
      commit sc (MkScreen _
                   (with_params (onChange i (ps_params (sc_state sc))) (sc_state sc)) true)
  | commit_change_only sc i :
      sc_effect_pending sc = false ->
      effect_deps (onChange i (ps_params (sc_state sc)))
        = effect_deps (ps_params (sc_state sc)) ->
      commit sc (MkScreen _
                   (with_params (onChange i (ps_params (sc_state sc))) (sc_state sc)) false)
  | commit_effect sc s' :
      sc_effect_pending sc = true ->
      run_initializeNetwork_checked (ps_params (sc_state sc)) (sc_state sc) = Some s' ->
      commit sc (MkScreen _ s' false)
  | commit_click sc s' :
      sc_effect_pending sc = false ->
      run_initializeNetwork_checked (ps_params (sc_state sc)) (sc_state sc) = Some s' ->
      commit sc (MkScreen _ s' false).

Inductive on_screen : Screen -> Prop :=
  | on_screen_first : on_screen first_render
  | on_screen_commit sc sc' : on_screen sc -> commit sc sc' -> on_screen sc'.

Lemma run_initializeNetwork_checked_inv u s s' :
  run_initializeNetwork_checked u s = Some s' ->
  numNodes (params_of u) <= max_array_length /\ s' = run_initializeNetwork d u s.
Proof.
  unfold run_initializeNetwork_checked, run_initializeNetwork.
  rewrite initializeNetwork_checked_eq.
  destruct (Z.ltb_spec max_array_length (numNodes (params_of u))) as [Hbig|Hfit];
    [discriminate|].
  intros [= <-]. split; [exact Hfit|reflexivity].
Qed.

Lemma run_initializeNetwork_checked_fits u s :
  numNodes (params_of u) <= max_array_length ->
  run_initializeNetwork_checked u s = Some (run_initializeNetwork d u s).
Proof.
  intros Hfit. unfold run_initializeNetwork_checked, run_initializeNetwork.
  rewrite initializeNetwork_checked_eq.
  destruct (Z.ltb_spec max_array_length (numNodes (params_of u))) as [Hbig|_];
    [lia|reflexivity].
Qed.

(** What a screen whose effect has run shows was generated with the
    current [numNodes], [proximityThreshold] and [resourceCapacity], by a
    call that did not throw. *)
Definition shows_generation (sc : Screen) : Prop :=
  sc_effect_pending sc = false ->
  numNodes (params_of (ps_params (sc_state sc))) <= max_array_length
  /\ shown_from_generation d (sc_state sc).

Lemma commit_shows_generation sc sc' :
  shows_generation sc -> commit sc sc' -> shows_generation sc'.
Proof.
  intros IH Hc.
  destruct Hc as [sc i Hp Hdeps|sc i Hp Hdeps|sc s' Hp Hrun|sc s' Hp Hrun];
    unfold shows_generation; cbn [sc_state sc_effect_pending]; intros Hpending.
  - discriminate Hpending.
  - destruct (IH Hp) as [Hfit (k & m & Hshown)].
    unfold effect_deps in Hdeps. injection Hdeps as Hn Ht.
    split.
    + cbn [with_params ps_params params_of numNodes] in *. now rewrite Hn.
    + exists k, m. cbn [with_params ps_nodes ps_edges ps_params].
      rewrite Hshown. f_equal. unfold with_maxConnections, params_of. cbn.
      now rewrite Hn, Ht, onChange_resourceCapacity.
  - apply run_initializeNetwork_checked_inv in Hrun as [Hfit ->].
    split; [exact Hfit|apply run_initializeNetwork_from_generation].
  - apply run_initializeNetwork_checked_inv in Hrun as [Hfit ->].
    split; [exact Hfit|apply run_initializeNetwork_from_generation].
Qed.

Lemma on_screen_shows_generation sc : on_screen sc -> shows_generation sc.
Proof.
  induction 1 as [|sc sc' _ IH Hc].
  - intros Hpending. discriminate Hpending.
  - exact (commit_shows_generation sc sc' IH Hc).
Qed.

(** A click never throws: on a screen whose effect has run, [numNodes]
    is one that [Array.from] accepted, so [commit] needs no case for a
    click that fails. *)
Lemma click_returns sc :
  on_screen sc -> sc_effect_pending sc = false ->
  run_initializeNetwork_checked (ps_params (sc_state sc)) (sc_state sc)
  = Some (run_initializeNetwork d (ps_params (sc_state sc)) (sc_state sc)).
Proof.
  intros Hon Hpending.
  destruct (on_screen_shows_generation sc Hon Hpending) as [Hfit _].
  now apply run_initializeNetwork_checked_fits.
Qed.

(** The two relations agree: a screen whose effect has run shows a
    state of [reachable], the commit of a change followed by its effect
    being one [step]; a screen whose effect is pending is the first
    render or the commit of such a change. *)
Definition pending_from_step (sc : Screen) : Prop :=
  sc = first_render
  \/ exists s i,
       reachable d s
       /\ effect_deps (onChange i (ps_params s)) <> effect_deps (ps_params s)
       /\ sc_state sc = with_params (onChange i (ps_params s)) s.

Lemma on_screen_reachable sc :
  on_screen sc ->
  if sc_effect_pending sc then pending_from_step sc else reachable d (sc_state sc).
Proof.
  induction 1 as [|sc sc' _ IH Hc]; [now left|].
  destruct Hc as [sc i Hp Hdeps|sc i Hp Hdeps|sc s' Hp Hrun|sc s' Hp Hrun];
    rewrite Hp in IH; cbn [sc_effect_pending sc_state].
  - right. exists (sc_state sc), i. auto.
  - apply (reach_step d (sc_state sc) (Change i)); [exact IH|].
    now apply step_change_only.
  - apply run_initializeNetwork_checked_inv in Hrun as [_ ->].
    destruct IH as [->|(s & i & Hr & Hdeps & Hst)]; [apply reach_mounted|].
    rewrite Hst.
    change (reachable d (run_initializeNetwork d (onChange i (ps_params s)) s)).
    apply (reach_step d s (Change i)); [exact Hr|].
    now apply step_change_effect.
  - apply run_initializeNetwork_checked_inv in Hrun as [_ ->].
    apply (reach_step d (sc_state sc) ClickRegenerate); [exact IH|].
    apply step_click.
Qed.

(** X17.  On every screen the page commits whose effect has run, the
    nodes shown are numbered 0 .. numNodes - 1 for the current [numNodes]
    (none when it is NaN), which is at most 2^32 - 1, every edge shown is
    within the current [proximityThreshold], and both [find] calls of the
    rendering succeed for every edge. *)
Theorem page_shows_consistent_network sc :
  on_screen sc -> sc_effect_pending sc = false ->
  default 0 (ui_numNodes (ps_params (sc_state sc))) <= max_array_length
  /\ FogNode.id <$> ps_nodes (sc_state sc)
     = seqZ 0 (default 0 (ui_numNodes (ps_params (sc_state sc))))
  /\ Forall (fun e =>
       (Edge.length e <=? ui_proximityThreshold (ps_params (sc_state sc)))%num = true
       /\ is_Some (fromNode (ps_nodes (sc_state sc)) e)
       /\ is_Some (toNode (ps_nodes (sc_state sc)) e))
     (ps_edges (sc_state sc)).
Proof.
  intros Hon Hpending.
  destruct (on_screen_shows_generation sc Hon Hpending) as [Hfit (k & m & Hshown)].
  split; [exact Hfit|].
  set (s := sc_state sc) in *.
  set (p := with_maxConnections m (params_of (ps_params s))) in *.
  assert (Hn : ps_nodes s = generated_nodes (shift_draws k d) p)
    by (unfold generated_nodes; now rewrite <- Hshown).
  assert (He : ps_edges s = generated_edges (shift_draws k d) p)
    by (unfold generated_edges; now rewrite <- Hshown).
  rewrite Hn, He. split; [apply generated_nodes_ids|].
  apply Forall_forall. intros e (nd & c & Hnd & Hc & Hel & ->)%generated_edge_inv.
  apply eligible_inv in Hel as (_ & Hle & _).
  split; [exact Hle|]. unfold fromNode, toNode. cbn [newEdge Edge.from Edge.to].
  rewrite !find_in_generated by assumption. split; eexists; reflexivity.
Qed.

End Renders.

(** *** Instances of the theorems of this part that have hypotheses *)

Definition no_node_params : @NetworkParams Float64 :=
  MkNetworkParams Float64 0 150%float 2 100%float.

Definition no_cap_params : @NetworkParams Float64 :=
  MkNetworkParams Float64 5 150%float 0 100%float.

Definition one_node_params : @NetworkParams Float64 :=
  MkNetworkParams Float64 1 150%float 2 100%float.

Definition nan_threshold_params : @NetworkParams Float64 :=
  MkNetworkParams Float64 5 nan 2 100%float.

Definition negative_threshold_params : @NetworkParams Float64 :=
  MkNetworkParams Float64 3 (-1)%float 2 100%float.

(** The page after mounting and after "1" is typed in "Max Connections". *)
Definition page_mounted : @PageState Float64 := @mounted Float64 sample_draws.

Definition page_cap_typed : @PageState Float64 :=
  MkPageState Float64
    (@onChange Float64 (MaxConnectionsInput (Some 1)) (ps_params page_mounted))
    (ps_nodes page_mounted) (ps_edges page_mounted) (ps_draws page_mounted).

Lemma no_nodes_when_count_not_positive_witness :
  numNodes no_node_params <= 0
  /\ @initializeNetwork Float64 sample_draws no_node_params = ([], []).
Proof.
  split; [simpl; lia|].
  apply (@no_nodes_when_count_not_positive Float64 sample_draws no_node_params).
  simpl. lia.
Defined.

Lemma no_edges_when_cap_not_positive_witness :
  maxConnections no_cap_params <= 0
  /\ @generated_edges Float64 sample_draws no_cap_params = []
  /\ Forall (fun nd => FogNode.connections nd = [])
       (@generated_nodes Float64 sample_draws no_cap_params).
Proof.
  split; [simpl; lia|].
  apply (@no_edges_when_cap_not_positive Float64 sample_draws no_cap_params).
  simpl. lia.
Defined.

Lemma single_node_has_no_edges_witness :
  numNodes one_node_params = 1
  /\ FogNode.id <$> @generated_nodes Float64 sample_draws one_node_params = [0]
  /\ @generated_edges Float64 sample_draws one_node_params = [].
Proof.
  split; [reflexivity|].
  apply (@single_node_has_no_edges Float64 sample_draws one_node_params).
  reflexivity.
Defined.

Lemma edge_count_bounded_witness :
  0 <= numNodes sample_params /\ 0 <= maxConnections sample_params
  /\ Z.of_nat (List.length (@generated_edges Float64 sample_draws sample_params))
     <= numNodes sample_params
        * Z.min (maxConnections sample_params) (numNodes sample_params - 1).
Proof.
  split; [simpl; lia|]. split; [simpl; lia|].
  apply (@edge_count_bounded Float64 sample_draws sample_params); simpl; lia.
Defined.

Lemma no_edges_when_threshold_is_nan_witness :
  proximityThreshold nan_threshold_params = nan
  /\ @generated_edges Float64 sample_draws nan_threshold_params = [].
Proof.
  split; [reflexivity|].
  apply (no_edges_when_threshold_is_nan sample_draws nan_threshold_params).
  reflexivity.
Defined.

Lemma page_parameters_stay_clamped_witness :
  @reachable Float64 sample_draws page_mounted
  /\ (forall n, ui_numNodes (ps_params page_mounted) = Some n -> 1 <= n)
  /\ (forall m, ui_maxConnections (ps_params page_mounted) = Some m -> 1 <= m)
  /\ ui_resourceCapacity (ps_params page_mounted) = @num_of_Z Float64 100.
Proof.
  split; [apply reach_mounted|].
  apply (@page_parameters_stay_clamped Float64 sample_draws page_mounted).
  apply reach_mounted.
Defined.

(** The screen after mounting, the screen committed when "3" is typed in
    "Number of Nodes", and the screen after the effect of that render. *)
Definition screen_mounted : @Screen Float64 := MkScreen Float64 page_mounted false.

Definition screen_three_typed : @Screen Float64 :=
  MkScreen Float64
    (@with_params Float64
       (@onChange Float64 (NumNodesInput (Some 3)) (ps_params page_mounted)) page_mounted)
    true.

Definition screen_three_nodes : @Screen Float64 :=
  MkScreen Float64
    (@run_initializeNetwork Float64 sample_draws
       (ps_params (sc_state screen_three_typed)) (sc_state screen_three_typed))
    false.

(** The screen committed when "4294967296" is typed instead. *)
Definition screen_huge_typed : @Screen Float64 :=
  MkScreen Float64
    (@with_params Float64
       (@onChange Float64 (NumNodesInput (Some (2 ^ 32))) (ps_params page_mounted))
       page_mounted)
    true.

Lemma screen_mounted_on_screen : @on_screen Float64 sample_draws screen_mounted.
Proof.
  apply (@on_screen_commit Float64 sample_draws (@first_render Float64));
    [apply on_screen_first|].
  apply (@commit_effect Float64 sample_draws (@first_render Float64)); [reflexivity|].
  apply run_initializeNetwork_checked_fits. unfold max_array_length. cbn. lia.
Qed.

Lemma screen_three_typed_on_screen : @on_screen Float64 sample_draws screen_three_typed.
Proof.
  apply (@on_screen_commit Float64 sample_draws screen_mounted);
    [apply screen_mounted_on_screen|].
  apply (@commit_change Float64 sample_draws screen_mounted (NumNodesInput (Some 3)));
    [reflexivity|].
  intros [=].
Qed.

Lemma screen_three_nodes_on_screen : @on_screen Float64 sample_draws screen_three_nodes.
Proof.
  apply (@on_screen_commit Float64 sample_draws screen_three_typed);
    [apply screen_three_typed_on_screen|].
  apply (@commit_effect Float64 sample_draws screen_three_typed); [reflexivity|].
  apply run_initializeNetwork_checked_fits. unfold max_array_length. cbn. lia.
Qed.

Lemma page_shows_consistent_network_witness :
  @on_screen Float64 sample_draws screen_three_nodes
  /\ sc_effect_pending screen_three_nodes = false
  /\ default 0 (ui_numNodes (ps_params (sc_state screen_three_nodes))) <= max_array_length
  /\ FogNode.id <$> ps_nodes (sc_state screen_three_nodes)
     = seqZ 0 (default 0 (ui_numNodes (ps_params (sc_state screen_three_nodes))))
  /\ Forall (fun e =>
       (Edge.length e
        <=? ui_proximityThreshold (ps_params (sc_state screen_three_nodes)))%num = true
       /\ is_Some (fromNode (ps_nodes (sc_state screen_three_nodes)) e)
       /\ is_Some (toNode (ps_nodes (sc_state screen_three_nodes)) e))
     (ps_edges (sc_state screen_three_nodes)).
Proof.
  split; [exact screen_three_nodes_on_screen|]. split; [reflexivity|].
  exact (@page_shows_consistent_network Float64 sample_draws screen_three_nodes
           screen_three_nodes_on_screen eq_refl).
Defined.

(** Between the change and its effect the screen is stale: [numNodes] is
    3 and the twenty nodes of before are still shown. *)
Example stale_nodes_until_effect :
  sc_effect_pending screen_three_typed = true
  /\ ui_numNodes (ps_params (sc_state screen_three_typed)) = Some 3
  /\ List.length (ps_nodes (sc_state screen_three_typed)) = 20%nat
  /\ List.length (ps_nodes (sc_state screen_three_nodes)) = 3%nat.
Proof. vm_compute. repeat split. Qed.

(** With 4294967296 nodes asked for, the effect throws: the screen that
    was committed has no successor. *)
Lemma huge_count_has_no_successor :
  @on_screen Float64 sample_draws screen_huge_typed
  /\ forall sc', ~ @commit Float64 sample_draws screen_huge_typed sc'.
Proof.
  split.
  - apply (@on_screen_commit Float64 sample_draws screen_mounted);
      [apply screen_mounted_on_screen|].
    apply (@commit_change Float64 sample_draws screen_mounted
             (NumNodesInput (Some (2 ^ 32))));
      [reflexivity|].
    intros [=].
  - intros sc' Hc. inversion Hc as [sc i Hp _|sc i Hp _|sc s' _ Hrun|sc s' Hp _]; subst;
      try discriminate Hp.
    apply run_initializeNetwork_checked_inv in Hrun as [Hfit _].
    unfold max_array_length in Hfit. cbn in Hfit. lia.
Qed.

Lemma max_connections_input_keeps_network_witness :
  @step Float64 sample_draws page_mounted (Change (MaxConnectionsInput (Some 1)))
    page_cap_typed
  /\ ps_nodes page_cap_typed = ps_nodes page_mounted
  /\ ps_edges page_cap_typed = ps_edges page_mounted
  /\ ps_draws page_cap_typed = ps_draws page_mounted
  /\ ui_maxConnections (ps_params page_cap_typed) = @Math_max_int 1 (Some 1).
Proof.
  assert (H : @step Float64 sample_draws page_mounted
                (Change (MaxConnectionsInput (Some 1))) page_cap_typed).
  { apply (@step_change_only Float64 sample_draws page_mounted
             (MaxConnectionsInput (Some 1))). reflexivity. }
  split; [exact H|].
  exact (@max_connections_input_keeps_network Float64 sample_draws
           page_mounted (Some 1) page_cap_typed H).
Defined.

Lemma regenerate_applies_current_cap_witness :
  @reachable Float64 sample_draws page_cap_typed
  /\ @step Float64 sample_draws page_cap_typed ClickRegenerate
       (@run_initializeNetwork Float64 sample_draws (ps_params page_cap_typed)
          page_cap_typed)
  /\ Forall (fun nd =>
       Z.of_nat (List.length (out_edges (FogNode.id nd)
          (ps_edges (@run_initializeNetwork Float64 sample_draws
                       (ps_params page_cap_typed) page_cap_typed))))
       <= default 0 (ui_maxConnections (ps_params
            (@run_initializeNetwork Float64 sample_draws
               (ps_params page_cap_typed) page_cap_typed))))
     (ps_nodes (@run_initializeNetwork Float64 sample_draws
                  (ps_params page_cap_typed) page_cap_typed)).
Proof.
  assert (H1 : @reachable Float64 sample_draws page_cap_typed).
  { apply (@reach_step Float64 sample_draws page_mounted
             (Change (MaxConnectionsInput (Some 1)))); [apply reach_mounted|].
    apply (@step_change_only Float64 sample_draws page_mounted
             (MaxConnectionsInput (Some 1))). reflexivity. }
  assert (H2 : @step Float64 sample_draws page_cap_typed ClickRegenerate
                 (@run_initializeNetwork Float64 sample_draws
                    (ps_params page_cap_typed) page_cap_typed))
    by apply step_click.
  split; [exact H1|]. split; [exact H2|].
  exact (@regenerate_applies_current_cap Float64 sample_draws page_cap_typed _ H1 H2).
Defined.

Lemma page_threshold_never_below_10_witness :
  (@num_of_Z Float64 10 <=? @num_of_Z Float64 50)%num = true
  /\ (@num_of_Z Float64 10 <=? @num_of_Z Float64 10)%num = true
  /\ @reachable Float64 sample_draws page_mounted
  /\ ((@num_of_Z Float64 10 <=? ui_proximityThreshold (ps_params page_mounted))%num = true
      \/ (ui_proximityThreshold (ps_params page_mounted) <=? @num_of_Z Float64 10)%num
         = false).
Proof.
  split; [reflexivity|]. split; [reflexivity|]. split; [apply reach_mounted|].
  apply (@page_threshold_never_below_10 Float64 sample_draws page_mounted);
    [reflexivity | reflexivity | apply reach_mounted].
Defined.

(** The display can be stale: after mounting on [sample_draws], node 0
    has four outgoing edges; typing "1" in "Max Connections" leaves them
    on display, and a click brings the count down to one. *)
Example stale_cap_until_regenerate :
  ui_maxConnections (ps_params page_cap_typed) = Some 1
  /\ List.length (out_edges 0 (ps_edges page_cap_typed)) = 4%nat
  /\ List.length (out_edges 0 (ps_edges
       (@run_initializeNetwork Float64 sample_draws (ps_params page_cap_typed)
          page_cap_typed))) = 1%nat.
Proof. vm_compute. repeat split. Qed.

(** *** Instances of the binary64 theorems *)

Lemma sample_draws_are_unit : unit_draws sample_draws.
Proof. exact sample_draws_unit. Qed.

(** On [sample_draws] the three nodes of the scenario are placed at
    (0, 37.5), (300, 262.5) and (200, 187.5). *)
Example three_nodes_positions :
  (fun nd => (FogNode.x nd, FogNode.y nd))
    <$> @generated_nodes Float64 sample_draws three_nodes_params
  = [(0%float, 37.5%float); (300%float, 262.5%float); (200%float, 187.5%float)].
Proof. vm_compute. reflexivity. Qed.

Lemma nodes_in_visualization_bounds_witness :
  unit_draws sample_draws
  /\ Forall (fun nd : @FogNode.t Float64 =>
       (0 <=? FogNode.x nd)%float = true /\ (FogNode.x nd <? 400)%float = true
       /\ (0 <=? FogNode.y nd)%float = true /\ (FogNode.y nd <? 300)%float = true)
       (@generated_nodes Float64 sample_draws three_nodes_params)
  /\ Forall (fun a => Forall (fun b =>
         (@calculateProximity Float64 a b <=? 500)%float = true)
       (@generated_nodes Float64 sample_draws three_nodes_params))
       (@generated_nodes Float64 sample_draws three_nodes_params).
Proof.
  split; [exact sample_draws_are_unit|].
  exact (nodes_in_visualization_bounds sample_draws three_nodes_params sample_draws_are_unit).
Defined.

Lemma three_nodes_fully_connected_witness :
  unit_draws sample_draws
  /\ ends <$> @generated_edges Float64 sample_draws three_nodes_params
     = [(0, 1); (0, 2); (1, 0); (1, 2); (2, 0); (2, 1)]
  /\ List.length (@generated_edges Float64 sample_draws three_nodes_params) = 6%nat
  /\ Forall (fun nd =>
       List.length (out_edges (FogNode.id nd)
                      (@generated_edges Float64 sample_draws three_nodes_params)) = 2%nat
       /\ Z.of_nat (List.length (FogNode.connections nd))
          <= maxConnections three_nodes_params)
     (@generated_nodes Float64 sample_draws three_nodes_params).
Proof.
  split; [exact sample_draws_are_unit|].
  exact (three_nodes_fully_connected sample_draws sample_draws_are_unit).
Defined.

Lemma zero_threshold_no_edges_witness :
  (proximityThreshold four_apart_params =? 0)%float = true
  /\ Forall (fun a => Forall (fun b =>
         FogNode.id a <> FogNode.id b ->
         (@calculateProximity Float64 a b =? 0)%float = false)
       (@generated_nodes Float64 sample_draws four_apart_params))
     (@generated_nodes Float64 sample_draws four_apart_params)
  /\ @generated_edges Float64 sample_draws four_apart_params = [].
Proof.
  assert (H1 : (proximityThreshold four_apart_params =? 0)%float = true)
    by reflexivity.
  assert (H2 : Forall (fun a => Forall (fun b =>
         FogNode.id a <> FogNode.id b ->
         (@calculateProximity Float64 a b =? 0)%float = false)
       (@generated_nodes Float64 sample_draws four_apart_params))
     (@generated_nodes Float64 sample_draws four_apart_params)).
  { match goal with
    | |- ?G => refine (bool_decide_unpack G _)
    end. vm_compute. exact I. }
  split; [exact H1|]. split; [exact H2|].
  exact (proj1 (zero_threshold_no_edges_unless_coincident sample_draws
                  four_apart_params H1) H2).
Defined.

Lemma resources_within_capacity_witness :
  unit_draws sample_draws
  /\ (0 <=? resourceCapacity sample_params)%float = true
  /\ (resourceCapacity sample_params <? infinity)%float = true
  /\ Forall (fun nd : @FogNode.t Float64 =>
            (0 <=? FogNode.resources nd)%float = true
            /\ (FogNode.resources nd <=? resourceCapacity sample_params)%float = true)
       (@generated_nodes Float64 sample_draws sample_params)
  /\ (0 <=? @totalResources Float64 (@generated_nodes Float64 sample_draws sample_params))%float
     = true.
Proof.
  split; [exact sample_draws_are_unit|]. split; [reflexivity|]. split; [reflexivity|].
  exact (resources_within_capacity sample_draws sample_params
           sample_draws_are_unit eq_refl eq_refl).
Defined.

Lemma colors_are_dark_rgb_witness :
  unit_draws sample_draws
  /\ Forall (fun nd : @FogNode.t Float64 =>
            exists r g b : Z,
              0 <= r < 200 /\ 0 <= g < 200 /\ 0 <= b < 200
              /\ FogNode.color nd = rgb r g b)
       (@generated_nodes Float64 sample_draws sample_params).
Proof.
  split; [exact sample_draws_are_unit|].
  exact (colors_are_dark_rgb sample_draws sample_params sample_draws_are_unit).
Defined.

Lemma out_degree_when_all_reachable_witness :
  unit_draws sample_draws
  /\ (500 <=? proximityThreshold three_nodes_params)%float = true
  /\ 1 <= numNodes three_nodes_params /\ 0 <= maxConnections three_nodes_params
  /\ Forall (fun nd =>
            Z.of_nat (List.length (out_edges (FogNode.id nd)
                        (@generated_edges Float64 sample_draws three_nodes_params)))
            = Z.min (maxConnections three_nodes_params)
                    (numNodes three_nodes_params - 1))
       (@generated_nodes Float64 sample_draws three_nodes_params).
Proof.
  assert (Hn : 1 <= numNodes three_nodes_params) by (cbn; lia).
  assert (Hm : 0 <= maxConnections three_nodes_params) by (cbn; lia).
  split; [exact sample_draws_are_unit|]. split; [reflexivity|].
  split; [exact Hn|]. split; [exact Hm|].
  exact (out_degree_when_all_reachable sample_draws three_nodes_params
           sample_draws_are_unit eq_refl Hn Hm).
Defined.

(** With room for four connections each of the five nodes of
    [sample_params] links to all the nodes within 150 of it. *)
Definition slack_cap_params : @NetworkParams Float64 :=
  MkNetworkParams Float64 5 150%float 4 100%float.

Example slack_cap_run :
  ends <$> @generated_edges Float64 sample_draws slack_cap_params
  = [(0, 3); (0, 4); (1, 2); (2, 1); (2, 3); (3, 0); (3, 2); (3, 4); (4, 0); (4, 3)].
Proof. vm_compute. reflexivity. Qed.

Lemma symmetric_when_cap_is_slack_witness :
  numNodes slack_cap_params - 1 <= maxConnections slack_cap_params
  /\ Forall (fun e => (Edge.to e, Edge.from e)
                        ∈ ends <$> @generated_edges Float64 sample_draws slack_cap_params)
       (@generated_edges Float64 sample_draws slack_cap_params).
Proof.
  assert (H : numNodes slack_cap_params - 1 <= maxConnections slack_cap_params)
    by (cbn; lia).
  split; [exact H|].
  exact (symmetric_when_cap_is_slack sample_draws slack_cap_params H).
Defined.

Lemma no_edges_below_zero_threshold_witness :
  (proximityThreshold negative_threshold_params <? 0)%float = true
  /\ @generated_edges Float64 sample_draws negative_threshold_params = [].
Proof.
  split; [reflexivity|].
  exact (no_edges_below_zero_threshold sample_draws negative_threshold_params eq_refl).
Defined.


(** ** Raising the cap *)

Section CapMonotone.
Context `{N : Number}.
Variable d : nat -> num.
Variable p : NetworkParams.

Lemma newNodes_with_maxConnections m :
  newNodes d (with_maxConnections m p) = newNodes d p.
Proof. reflexivity. Qed.

(** X21.  For the same draws, raising [maxConnections] only adds edges:
    every edge of the output under a cap is an edge of the output under
    any larger cap. *)
Theorem larger_cap_keeps_edges (m' : Z) :
  maxConnections p <= m' ->
  Forall (fun e => e ∈ generated_edges d (with_maxConnections m' p))
    (generated_edges d p).
Proof.
  intros Hm. apply Forall_forall.
  intros e He. rewrite generated_edges_eq in He |- *.
  rewrite newNodes_with_maxConnections.
  apply list_elem_of_In, in_flat_map in He as (nd & Hnd & He).
  apply list_elem_of_In, in_flat_map. exists nd. split; [exact Hnd|].
  apply list_elem_of_In in Hnd, He. apply list_elem_of_In.
  unfold outgoing in *. apply list_elem_of_fmap in He as (c & -> & Hc).
  apply list_elem_of_fmap_2.
  rewrite candidates_prefix in Hc |- * by now apply (newNodes_fresh d p).
  apply elem_of_take in Hc as (i & Hi & Hlt).
  apply elem_of_take. exists i. split; [exact Hi|].
  cbn [with_maxConnections maxConnections]. lia.
Qed.

End CapMonotone.

Lemma larger_cap_keeps_edges_witness :
  maxConnections sample_params <= 4
  /\ Forall (fun e => e ∈ @generated_edges Float64 sample_draws
                          (with_maxConnections 4 sample_params))
       (@generated_edges Float64 sample_draws sample_params).
Proof.
  split; [simpl; lia|].
  apply (@larger_cap_keeps_edges Float64 sample_draws sample_params 4). simpl. lia.
Defined.
